(* Verification of the item-tree move task, the bulk-request schemas and the
   password route of the graasp backend.

   Sources embedded:
   - src/src/services/items/tasks/move-item-task.ts  (MoveItemTask.run, moveItem)
   - src/src/services/items/fluent-schema.ts        (moveMany, copyMany, deleteMany,
                                                     partialItemRequireOne, updateOne,
                                                     updateMany, getMany)
   - src/unnamed/part_001                           (POST /password/nouser,
                                                     POST and PATCH /password,
                                                     POST and PATCH /password/reset)
   - src/src/services/auth/plugins/password/test/fixtures/password.ts
                                                    (FileService)
   - src/src/services/item/plugins/itemLike/index.ts (POST and DELETE /:itemId/like)
   - src/src/services/item/plugins/publication/published/index.ts
                                                    (POST /collections/:itemId/publish)
   The item and membership services the move task calls (ItemService,
   ItemMembershipService, BaseItem) are not part of the source tree; they are
   modelled from the spec (sections 4.1 to 4.3) and marked as such; so is item
   creation (sections 3, 4.2 and 6), which is not in the source either. *)

From Stdlib Require Import String List Bool Arith NArith Lia.
Import ListNotations.

(* ------------------------------------------------------------------------- *)
(** * Data model *)

Definition ident := string.

(** An item path: the ordered ids of the ancestors, self included. *)
Definition ltree := list ident.

Inductive PermissionLevel := Read | Write | Admin.

Definition perm_rank (p : PermissionLevel) : nat :=
  match p with Read => 0 | Write => 1 | Admin => 2 end.

(** [perm_geb a b]: [a] is at least [b] on the scale read < write < admin. *)
Definition perm_geb (a b : PermissionLevel) : bool := perm_rank b <=? perm_rank a.

Record Item := mkItem { id : ident; path : ltree }.

Record ItemMembership := mkMembership {
  memberId : ident;
  itemPath : ltree;
  permission : PermissionLevel
}.

(** The relational store: items table and item_membership table. *)
Record DB := mkDB { items : list Item; memberships : list ItemMembership }.

Fixpoint ltree_eqb (a b : ltree) : bool :=
  match a, b with
  | [], [] => true
  | x :: a', y :: b' => String.eqb x y && ltree_eqb a' b'
  | _, _ => false
  end.

(** ltree descendant-or-self test ([b <@ a]). *)
Fixpoint is_prefix (a b : ltree) : bool :=
  match a, b with
  | [], _ => true
  | x :: a', y :: b' => String.eqb x y && is_prefix a' b'
  | _ :: _, [] => false
  end.

(* ------------------------------------------------------------------------- *)
(** * Path codec *)

(** Modelled from the spec: BaseItem's path encoding (base-item.ts is missing
    from the source); ids joined by the ltree separator. *)
Definition encodePath (p : ltree) : string := String.concat "." p.

(** Modelled from the spec: [BaseItem.parentPath], the path without its last id,
    null for a root item. *)
Definition parentPath (item : Item) : option string :=
  match path item with
  | [] | [_] => None
  | p => Some (encodePath (removelast p))
  end.

(** Modelled from the spec: [BaseItem.itemDepth], the number of ids in the path. *)
Definition itemDepth (item : Item) : nat := length (path item).

(* ------------------------------------------------------------------------- *)
(** * Item and membership services *)

(** Modelled from the spec: [ItemService.get]. *)
Definition itemService_get (i : ident) (db : DB) : option Item :=
  find (fun it => String.eqb (id it) i) (items db).

Definition covers (s : ident) (p : ltree) (m : ItemMembership) : bool :=
  String.eqb (memberId m) s && is_prefix (itemPath m) p.

(** Keeps the most specific membership, the highest permission on a tie. *)
Definition better (m : ItemMembership) (acc : option ItemMembership)
  : option ItemMembership :=
  match acc with
  | None => Some m
  | Some a =>
      if length (itemPath a) <? length (itemPath m) then Some m
      else if (length (itemPath a) =? length (itemPath m))
              && (perm_rank (permission a) <? perm_rank (permission m))
      then Some m else Some a
  end.

(** Modelled from the spec: [effectivePermission] (section 4.3), the closest
    covering membership wins. *)
Definition effectivePermission (s : ident) (p : ltree) (db : DB)
  : option PermissionLevel :=
  option_map permission (fold_right better None (filter (covers s p) (memberships db))).

(** Modelled from the spec: [ItemMembershipService.canAdmin]. *)
Definition canAdmin (actor : ident) (item : Item) (db : DB) : bool :=
  match effectivePermission actor (path item) db with
  | Some Admin => true
  | _ => false
  end.

(** Modelled from the spec: [ItemMembershipService.canWrite]. *)
Definition canWrite (actor : ident) (item : Item) (db : DB) : bool :=
  match effectivePermission actor (path item) db with
  | Some Admin | Some Write => true
  | _ => false
  end.

Definition strictDescendant (item it : Item) : bool :=
  is_prefix (path item) (path it) && (length (path item) <? length (path it)).

(** Modelled from the spec: [ItemService.getNumberOfDescendants]. *)
Definition getNumberOfDescendants (item : Item) (db : DB) : nat :=
  length (filter (strictDescendant item) (items db)).

(** Modelled from the spec: [ItemService.getNumberOfLevelsToFarthestChild]. *)
Definition getNumberOfLevelsToFarthestChild (item : Item) (db : DB) : nat :=
  fold_right Nat.max 0
    (map (fun it => length (path it) - length (path item))
         (filter (strictDescendant item) (items db))).

(** Path of the moved subtree root after the move. *)
Definition newRootPath (item : Item) (parentItem : option Item) : ltree :=
  match parentItem with
  | Some p => path p ++ [id item]
  | None => [id item]
  end.

Definition rewritePath (old new p : ltree) : ltree :=
  if is_prefix old p then new ++ skipn (length old) p else p.

(** Modelled from the spec: [ItemService.move], the path rewrite of the
    subtree; membership paths follow by ON UPDATE CASCADE. *)
Definition itemService_move (item : Item) (parentItem : option Item) (db : DB) : DB :=
  let new := newRootPath item parentItem in
  mkDB
    (map (fun it => mkItem (id it) (rewritePath (path item) new (path it))) (items db))
    (map (fun m => mkMembership (memberId m) (rewritePath (path item) new (itemPath m))
                                (permission m)) (memberships db)).

(** Permission a subject inherits at the destination of a move. *)
Definition destPermission (s : ident) (parentItem : option Item) (db : DB)
  : option PermissionLevel :=
  match parentItem with
  | Some p => effectivePermission s (path p) db
  | None => None
  end.

Definition grants (g : option PermissionLevel) (p : PermissionLevel) : bool :=
  match g with Some q => perm_geb q p | None => false end.

Definition hasExplicit (s : ident) (p : ltree) (db : DB) : bool :=
  existsb (fun m => String.eqb (memberId m) s && ltree_eqb (itemPath m) p)
          (memberships db).

(** Subjects holding a membership on a strict ancestor of the item. *)
Definition inheritingSubjects (item : Item) (db : DB) : list ident :=
  nodup string_dec
    (map memberId
       (filter (fun m => is_prefix (itemPath m) (path item)
                         && (length (itemPath m) <? length (path item)))
               (memberships db))).

(** Modelled from the spec: [ItemMembershipService.moveHousekeeping]
    ([computeMoveHousekeeping], section 4.3). Inserts carry destination paths;
    deletes carry the paths the rows have after the move. *)
Definition moveHousekeeping (item : Item) (actor : ident) (db : DB)
    (parentItem : option Item) : list ItemMembership * list ItemMembership :=
  let new := newRootPath item parentItem in
  let inserts :=
    flat_map (fun s =>
      if hasExplicit s (path item) db then []
      else match effectivePermission s (path item) db with
           | Some p => if grants (destPermission s parentItem db) p then []
                       else [mkMembership s new p]
           | None => []
           end) (inheritingSubjects item db) in
  let deletes :=
    flat_map (fun m =>
      if is_prefix (path item) (itemPath m)
         && grants (destPermission (memberId m) parentItem db) (permission m)
      then [mkMembership (memberId m) (rewritePath (path item) new (itemPath m))
                         (permission m)]
      else []) (memberships db) in
  (inserts, deletes).

(** Modelled from the spec: [ItemMembershipService.createMany]. *)
Definition createMany (ms : list ItemMembership) (db : DB) : DB :=
  mkDB (items db) (memberships db ++ ms).

Definition matches (d m : ItemMembership) : bool :=
  String.eqb (memberId d) (memberId m) && ltree_eqb (itemPath d) (itemPath m).

(** Modelled from the spec: [ItemMembershipService.deleteManyMatching], deletes
    the rows of the same member and item path. *)
Definition deleteManyMatching (ms : list ItemMembership) (db : DB) : DB :=
  mkDB (items db)
       (filter (fun m => negb (existsb (fun d => matches d m) ms)) (memberships db)).

(* ------------------------------------------------------------------------- *)
(** * The task monad: errors and the transaction's store *)

Inductive GraaspError :=
| ItemNotFound (i : ident)
| UserCannotAdminItem (i : ident)
| TooManyDescendants (i : ident)
| InvalidMoveTarget (i : option ident)
| UserCannotWriteItem (i : ident)
| HierarchyTooDeep.

Definition M (A : Type) := DB -> (GraaspError + A) * DB.

Definition ret {A} (a : A) : M A := fun db => (inr a, db).
Definition throw {A} (e : GraaspError) : M A := fun db => (inl e, db).
Definition bind {A B} (m : M A) (k : A -> M B) : M B :=
  fun db => match m db with
            | (inl e, db') => (inl e, db')
            | (inr a, db') => k a db'
            end.
(** A query of the handler's transaction. *)
Definition query {A} (f : DB -> A) : M A := fun db => (inr (f db), db).
(** A write of the handler's transaction. *)
Definition update (f : DB -> DB) : M unit := fun db => (inr tt, f db).

Notation "x <- m ;; k" := (bind m (fun x => k)) (at level 61, m at next level, right associativity).
Notation "m ;;; k" := (bind m (fun _ => k)) (at level 61, right associativity).

(* ------------------------------------------------------------------------- *)
(** * MoveItemTask *)

Section MoveItemTask.

Variables MAX_DESCENDANTS_FOR_MOVE MAX_TREE_LEVELS : nat.

(** JavaScript falsiness of the optional string [parentPath]. *)
Definition falsy (o : option string) : bool :=
  match o with None => true | Some s => String.eqb s "" end.

(** [MoveItemTask.moveItem]. *)
Definition moveItem (actor : ident) (item : Item) (parentItem : option Item) : M unit :=
  hk <- query (fun db => moveHousekeeping item actor db parentItem) ;;
  let (inserts, deletes) := hk in
  update (itemService_move item parentItem) ;;;
  (if negb (length inserts =? 0) then update (createMany inserts) else ret tt) ;;;
  (if negb (length deletes =? 0) then update (deleteManyMatching deletes) else ret tt).

(** The [else if (!BaseItem.parentPath(item))] branch of [run]. *)
Definition noParentCheck (item : Item) : M (option Item) :=
  if falsy (parentPath item) then throw (InvalidMoveTarget None) else ret None.

(** The [if (this.parentItemId)] branch of [run]. *)
Definition parentCheck (actor : ident) (item : Item) (pid : ident) : M (option Item) :=
  parent_opt <- query (itemService_get pid) ;;
  match parent_opt with
  | None => throw (ItemNotFound pid)
  | Some parentItem =>
      let parentItemPath := encodePath (path parentItem) in
      if String.prefix (encodePath (path item)) parentItemPath
         || match parentPath item with
            | Some pp => String.eqb pp parentItemPath
            | None => false
            end
      then throw (InvalidMoveTarget (Some pid))
      else
        hasRightsOverParentItem <- query (canWrite actor parentItem) ;;
        if negb hasRightsOverParentItem then throw (UserCannotWriteItem pid)
        else
          levelsToFarthestChild <- query (getNumberOfLevelsToFarthestChild item) ;;
          if MAX_TREE_LEVELS <? itemDepth parentItem + 1 + levelsToFarthestChild
          then throw HierarchyTooDeep
          else ret (Some parentItem)
  end.

(** [MoveItemTask.run]. *)
Definition run (actor targetId : ident) (parentItemId : option ident) : M unit :=
  item_opt <- query (itemService_get targetId) ;;
  match item_opt with
  | None => throw (ItemNotFound targetId)
  | Some item =>
      hasRights <- query (canAdmin actor item) ;;
      if negb hasRights then throw (UserCannotAdminItem targetId)
      else
        numberOfDescendants <- query (getNumberOfDescendants item) ;;
        if MAX_DESCENDANTS_FOR_MOVE <? numberOfDescendants
        then throw (TooManyDescendants targetId)
        else
          parentItem <- match parentItemId with
                        | Some pid => if String.eqb pid "" then noParentCheck item
                                      else parentCheck actor item pid
                        | None => noParentCheck item
                        end ;;
          moveItem actor item parentItem
  end.

End MoveItemTask.

(* ------------------------------------------------------------------------- *)
(** * Item creation *)

(** Modelled from the spec: the errors of item creation (section 6) that the
    move task does not raise; the others are the move task's. *)
Inductive CreateError :=
| CreateFailure (e : GraaspError)
| MemberCannotWriteItem (i : ident)
| ItemNotFolder (i : ident)
| TooManyChildren (i : ident).

Section ItemCreate.

Variables MAX_TREE_LEVELS MAX_NUMBER_OF_CHILDREN : nat.

(** Modelled from the spec: whether an item's type is the container type
    "folder" (the item type is not otherwise part of this model). *)
Variable isFolder : Item -> bool.

(** Modelled from the spec: the number of direct children of [parent]. *)
Definition numberOfChildren (parent : Item) (db : DB) : nat :=
  length (filter (fun it => is_prefix (path parent) (path it)
                            && (length (path it) =? S (length (path parent))))
                 (items db)).

(** Modelled from the spec: stores the new item with its self-admin grant
    (section 3), which is left out when the actor already administers the
    parent, so that memberships stay minimal. *)
Definition insertItem (actor : ident) (adminOverParent : bool) (it : Item) (db : DB) : DB :=
  mkDB (items db ++ [it])
       (if adminOverParent then memberships db
        else memberships db ++ [mkMembership actor (path it) Admin]).

(** Modelled from the spec: item creation ("create item", section 6) under
    an optional parent, with the checks of the tree invariant checker
    (section 4.2): write right on the parent, parent is a folder, room for
    another child, and [assertDepthAllowed] on the prospective path. A failure
    leaves the store unchanged. *)
Definition createItem (actor newId : ident) (parentId : option ident) (db : DB)
  : (CreateError + Item) * DB :=
  match parentId with
  | None =>
      let it := mkItem newId [newId] in
      if MAX_TREE_LEVELS <? length (path it)
      then (inl (CreateFailure HierarchyTooDeep), db)
      else (inr it, insertItem actor false it db)
  | Some pid =>
      match itemService_get pid db with
      | None => (inl (CreateFailure (ItemNotFound pid)), db)
      | Some parent =>
          if negb (canWrite actor parent db) then (inl (MemberCannotWriteItem pid), db)
          else if negb (isFolder parent) then (inl (ItemNotFolder pid), db)
          else if MAX_NUMBER_OF_CHILDREN <=? numberOfChildren parent db
          then (inl (TooManyChildren pid), db)
          else
            let it := mkItem newId (path parent ++ [newId]) in
            if MAX_TREE_LEVELS <? length (path it)
            then (inl (CreateFailure HierarchyTooDeep), db)
            else (inr it, insertItem actor (canAdmin actor parent db) it db)
      end
  end.

End ItemCreate.

(** The destination of a move request: [undefined] and [""] mean the root. *)
Definition destinationOf (parentItemId : option ident) (db : DB) : option Item :=
  match parentItemId with
  | Some q => if String.eqb q "" then None else itemService_get q db
  | None => None
  end.

(** Every item respects the depth bound. *)
Definition depthBounded (maxL : nat) (db : DB) : Prop :=
  forall it, In it (items db) -> length (path it) <= maxL.

(** The errors the spec lists for a move. *)
Definition specMoveError (e : GraaspError) : bool :=
  match e with
  | ItemNotFound _ | UserCannotAdminItem _ | UserCannotWriteItem _
  | InvalidMoveTarget _ | HierarchyTooDeep => true
  | TooManyDescendants _ => false
  end.

(* ------------------------------------------------------------------------- *)
(** * Bulk-request schemas (src/src/services/items/fluent-schema.ts) *)

(** Fastify runs the route schema before the handler: a request failing it is
    answered 400 Bad Request and the handler never runs. *)
Inductive Response (R : Type) := BadRequest | Handled (r : R).
Arguments BadRequest {R}.
Arguments Handled {R} r.

Definition validated {St R : Type} (ok : bool) (handler : St -> R * St) (st : St)
  : Response R * St :=
  if ok then let (r, st') := handler st in (Handled r, st') else (BadRequest, st).

Section BulkSchemas.

Variable MAX_TARGETS_FOR_MODIFY_REQUEST : nat.

(** The [uuid] format of schemas/fluent-schema, which is not in the source. *)
Variable isUuid : string -> bool.

(** Modelled from the spec: [idsQuery] of schemas/fluent-schema (not in the
    source), an [id] array of uuids. *)
Definition idsQuery_valid (ids : list string) : bool := forallb isUuid ids.

(** [S.object().prop('id', S.array().maxItems(MAX_TARGETS_FOR_MODIFY_REQUEST))
    .extend(idsQuery)], the querystring of moveMany, copyMany and deleteMany. *)
Definition modifyManyQuerystring_valid (ids : list string) : bool :=
  (length ids <=? MAX_TARGETS_FOR_MODIFY_REQUEST) && idsQuery_valid ids.

(** A request body: the optional [parentId] and the names of other properties. *)
Record ParentIdBody := mkBody { parentId : option string; otherProps : list string }.

(** [S.object().additionalProperties(false).prop('parentId', uuid)]. Fastify's
    ajv runs with [removeAdditional: true] (server.ts does not override it), so
    other properties are stripped from the body rather than rejected, and only
    [parentId] is checked; the handler reads [parentId] alone. *)
Definition parentIdBody_valid (b : ParentIdBody) : bool :=
  match parentId b with Some p => isUuid p | None => true end.

Definition moveManyRoute {St R : Type} (handler : list string -> option string -> St -> R * St)
    (ids : list string) (body : ParentIdBody) (st : St) : Response R * St :=
  validated (modifyManyQuerystring_valid ids && parentIdBody_valid body)
            (handler ids (parentId body)) st.

Definition copyManyRoute {St R : Type} (handler : list string -> option string -> St -> R * St)
    (ids : list string) (body : ParentIdBody) (st : St) : Response R * St :=
  validated (modifyManyQuerystring_valid ids && parentIdBody_valid body)
            (handler ids (parentId body)) st.

Definition deleteManyRoute {St R : Type} (handler : list string -> St -> R * St)
    (ids : list string) (st : St) : Response R * St :=
  validated (modifyManyQuerystring_valid ids) (handler ids) st.

End BulkSchemas.

(* ------------------------------------------------------------------------- *)
(** * Item bodies and read/update schemas (src/src/services/items/fluent-schema.ts) *)

(** A JavaScript string, as its UTF-16 code units. *)
Definition jsString := list N.

(** [\s] of a JavaScript regular expression: the WhiteSpace and
    LineTerminator characters of ECMA-262, that is U+0009 to U+000D, U+0020,
    U+00A0, U+1680, U+2000 to U+200A, U+2028, U+2029, U+202F, U+205F, U+3000
    and U+FEFF. None of them is a surrogate, so the pattern gives the same
    answer whether it reads code units or, with the [u] flag ajv sets, code
    points. *)
Definition isWhitespace (c : N) : bool :=
  (((9 <=? c) && (c <=? 13)) || (c =? 32) || (c =? 160) || (c =? 5760)
   || ((8192 <=? c) && (c <=? 8202)) || (c =? 8232) || (c =? 8233)
   || (c =? 8239) || (c =? 8287) || (c =? 12288) || (c =? 65279))%N.

(** The pattern ['^\\S+( \\S+)*$'] as an automaton: [inWord] says that the
    last character read is a non-whitespace one. *)
Fixpoint namePatternFrom (inWord : bool) (s : jsString) : bool :=
  match s with
  | [] => inWord
  | c :: s' =>
      if isWhitespace c
      then inWord && (c =? 32)%N && namePatternFrom false s'
      else namePatternFrom true s'
  end.

Definition namePattern (s : jsString) : bool := namePatternFrom false s.

(** [S.string().minLength(1).pattern('^\\S+( \\S+)*$')], the [name] of
    [partialItem] and [partialItemRequireOne]. ajv's [minLength] counts code
    points; a string has one iff it has a code unit. *)
Definition itemName_valid (s : jsString) : bool :=
  (1 <=? length s) && namePattern s.

(** The language of the pattern, word by word: one or more non-empty words
    without whitespace, separated by single spaces. *)
Fixpoint noWhitespace (s : jsString) : bool :=
  match s with
  | [] => true
  | c :: s' => negb (isWhitespace c) && noWhitespace s'
  end.

Definition nameWord (w : jsString) : Prop := w <> [] /\ noWhitespace w = true.

(** [ws.join(' ')]. *)
Fixpoint joinSpace (ws : list jsString) : jsString :=
  match ws with
  | [] => []
  | [w] => w
  | w :: ws' => w ++ 32%N :: joinSpace ws'
  end.




Section ItemSchemas.

Variables MAX_TARGETS_FOR_READ_REQUEST MAX_TARGETS_FOR_MODIFY_REQUEST : nat.
Variable isUuid : string -> bool.



(** [getMany]: the [id] array with [maxItems(MAX_TARGETS_FOR_READ_REQUEST)]. *)
Definition getManyRoute {St R : Type} (handler : list string -> St -> R * St)
    (ids : list string) (st : St) : Response R * St :=
  validated ((length ids <=? MAX_TARGETS_FOR_READ_REQUEST) && idsQuery_valid isUuid ids)
            (handler ids) st.

End ItemSchemas.

(* ------------------------------------------------------------------------- *)
(** * POST /password/nouser (src/unnamed/part_001) *)

Definition StatusCode := nat.
Definition NOT_FOUND : StatusCode := 404.
Definition NO_CONTENT : StatusCode := 204.

Record Reply := mkReply { statusCode : StatusCode }.

(** [reply.status(code)]. *)
Definition setStatus (code : StatusCode) (rep : Reply) : Reply := mkReply code.

Section PasswordNoUser.

Variables Store Member Err : Type.
Variable member_id : Member -> ident.
(** [memberService.getByEmail]. *)
Variable getByEmail : Store -> string -> option Member.
(** [memberService.validate]. *)
Variable validate : ident -> Store -> (Err + unit) * Store.
(** [memberPasswordService.post]. *)
Variable postPassword : Member -> string -> Store -> (Err + unit) * Store.

(** A handler step: the transaction's store and the reply object. *)
Definition RM (A : Type) := Store * Reply -> (Err + A) * (Store * Reply).

Definition rret {A} (a : A) : RM A := fun s => (inr a, s).
Definition rbind {A B} (m : RM A) (k : A -> RM B) : RM B :=
  fun s => match m s with
           | (inl e, s') => (inl e, s')
           | (inr a, s') => k a s'
           end.
Definition rquery {A} (f : Store -> A) : RM A := fun s => (inr (f (fst s)), s).
Definition rlift {A} (f : Store -> (Err + A) * Store) : RM A :=
  fun s => let (r, st') := f (fst s) in (r, (st', snd s)).
Definition status (code : StatusCode) : RM unit :=
  fun s => (inr tt, (fst s, setStatus code (snd s))).

(** [db.transaction]: the store is rolled back when the body throws; the reply
    object is not part of the transaction. *)
Definition transaction {A} (body : RM A) : RM A :=
  fun s => match body s with
           | (inl e, (_, rep')) => (inl e, (fst s, rep'))
           | ok => ok
           end.

(** The handler of [POST /password/nouser]. *)
Definition passwordNoUser (email password : string) : RM unit :=
  transaction
    (rbind (rquery (fun st => getByEmail st email)) (fun member =>
     rbind (match member with
            | Some m => rbind (rlift (validate (member_id m))) (fun _ =>
                        rlift (postPassword m password))
            | None => status NOT_FOUND
            end) (fun _ =>
     status NO_CONTENT))).

End PasswordNoUser.

(* ------------------------------------------------------------------------- *)
(** * Other routes of the password plugin (src/unnamed/part_001) *)

(** The [ActionTriggers] the handlers below log. *)
Inductive ActionTrigger := AskResetPassword | ResetPassword | ItemLike | ItemUnlike.

Section PasswordRoutes.

Variables Store Member Err : Type.
(** [memberPasswordService.post] and [memberPasswordService.patch]. *)
Variable postPassword : Member -> string -> Store -> (Err + unit) * Store.
Variable patchPassword : Member -> string -> string -> Store -> (Err + unit) * Store.

(** The handler of [POST /password]. *)
Definition passwordPost (member : Member) (password : string) : RM Store Err unit :=
  transaction Store Err
    (rbind Store Err (rlift Store Err (postPassword member password)) (fun _ =>
     status Store Err NO_CONTENT)).

(** The handler of [PATCH /password]. *)
Definition passwordPatch (member : Member) (currentPassword password : string)
    : RM Store Err unit :=
  transaction Store Err
    (rbind Store Err (rlift Store Err (patchPassword member password currentPassword))
       (fun _ => status Store Err NO_CONTENT)).

End PasswordRoutes.

(** The password-reset handlers run outside a transaction and answer before
    their work is done: they are modelled over the store and the sequence of
    observable events, the reply operations, the mails and the logged
    actions. *)
Section PasswordReset.

Variables Store Member Err : Type.
Variable member_lang : Member -> string.

Inductive ResetEvent :=
| EvStatus (code : StatusCode)   (** [reply.status(code)] *)
| EvSend                         (** [reply.send()] *)
| EvMail (email token lang : string)  (** [mailResetPasswordRequest] *)
| EvAction (type : ActionTrigger) (member : Member).  (** [actionService.postMany] *)

Definition HM (A : Type) := Store * list ResetEvent -> (Err + A) * (Store * list ResetEvent).

Definition hret {A} (a : A) : HM A := fun s => (inr a, s).
Definition hbind {A B} (m : HM A) (k : A -> HM B) : HM B :=
  fun s => match m s with
           | (inl e, s') => (inl e, s')
           | (inr a, s') => k a s'
           end.
Definition hlift {A} (f : Store -> (Err + A) * Store) : HM A :=
  fun s => let (r, st') := f (fst s) in (r, (st', snd s)).
Definition hemit (ev : ResetEvent) : HM unit :=
  fun s => (inr tt, (fst s, snd s ++ [ev])).
(** A promise that is not awaited: its effects happen, its outcome is dropped. *)
Definition hdetach {A} (m : HM A) : HM unit := fun s => (inr tt, snd (m s)).

(** [memberPasswordService.createResetPasswordRequest]: a token and the member
    when the email belongs to a member with a password. *)
Variable createResetPasswordRequest :
  Store -> string -> (Err + option (string * Member)) * Store.
(** [memberPasswordService.applyReset] and
    [memberPasswordService.getMemberByPasswordResetUuid]. *)
Variable applyReset : string -> string -> Store -> (Err + unit) * Store.
Variable getMemberByPasswordResetUuid : string -> Store -> (Err + Member) * Store.
(** [actionService.postMany] with one action of the given type. *)
Variable postManyAction : Member -> ActionTrigger -> Store -> (Err + unit) * Store.

(** A non-awaited [actionService.postMany(member, repositories, request, [action])]. *)
Definition logAction (type : ActionTrigger) (member : Member) : HM unit :=
  hbind (hemit (EvAction type member)) (fun _ =>
  hdetach (hlift (postManyAction member type))).

(** The handler of [POST /password/reset]. *)
Definition postResetPassword (email : string) : HM unit :=
  hbind (hemit (EvStatus NO_CONTENT)) (fun _ =>
  hbind (hemit EvSend) (fun _ =>
  hbind (hlift (fun st => createResetPasswordRequest st email)) (fun resetPasswordRequest =>
  match resetPasswordRequest with
  | Some (token, member) =>
      hbind (hemit (EvMail email token (member_lang member))) (fun _ =>
      logAction AskResetPassword member)
  | None => hret tt
  end))).

(** The handler of [PATCH /password/reset], for the key [uuid] that the
    [authenticatePasswordReset] pre-handler put on the request. *)
Definition patchResetPassword (password uuid : string) : HM unit :=
  hbind (hlift (applyReset password uuid)) (fun _ =>
  hbind (hlift (getMemberByPasswordResetUuid uuid)) (fun member =>
  hbind (hemit (EvStatus NO_CONTENT)) (fun _ =>
  logAction ResetPassword member))).

End PasswordReset.

Arguments EvStatus {Member} code.
Arguments EvSend {Member}.
Arguments EvMail {Member} email token lang.
Arguments EvAction {Member} type member.

(** The reply operations among the events. *)
Definition isReplyEvent {Member} (ev : ResetEvent Member) : bool :=
  match ev with EvStatus _ | EvSend => true | _ => false end.

(** The mails among the events. *)
Definition isMail {Member} (ev : ResetEvent Member) : bool :=
  match ev with EvMail _ _ _ => true | _ => false end.

(* ------------------------------------------------------------------------- *)
(** * Transactional item routes
    (src/src/services/item/plugins/itemLike/index.ts,
     src/src/services/item/plugins/publication/published/index.ts) *)

(** An action as the handlers build it: the item, the type and [extra.itemId]. *)
Record Action := mkAction { actionItem : Item; actionType : ActionTrigger; extraItemId : ident }.

Section ItemLikeRoutes.

Variables Store Err ItemLikeT : Type.
(** [itemLikeService.post] and [itemLikeService.removeOne], for a member and
    an item id. *)
Variable itemLikeService_post : ident -> ident -> Store -> (Err + ItemLikeT) * Store.
Variable itemLikeService_removeOne : ident -> ident -> Store -> (Err + ItemLikeT) * Store.
(** [itemService.get(member, repositories, itemId)]. *)
Variable itemService_getFor : ident -> ident -> Store -> (Err + Item) * Store.
(** [actionService.postMany(member, repositories, request, actions)]. *)
Variable actionService_postMany : ident -> list Action -> Store -> (Err + unit) * Store.

(** The handler of [POST /:itemId/like]. *)
Definition postItemLike (member itemId : ident) : RM Store Err ItemLikeT :=
  transaction Store Err
    (rbind Store Err (rlift Store Err (itemLikeService_post member itemId)) (fun newItemLike =>
     rbind Store Err (rlift Store Err (itemService_getFor member itemId)) (fun item =>
     let action := mkAction item ItemLike (id item) in
     rbind Store Err (rlift Store Err (actionService_postMany member [action])) (fun _ =>
     rret Store Err newItemLike)))).

(** The handler of [DELETE /:itemId/like]. *)
Definition deleteItemLike (member itemId : ident) : RM Store Err ItemLikeT :=
  transaction Store Err
    (rbind Store Err (rlift Store Err (itemLikeService_removeOne member itemId))
       (fun newItemLike =>
     rbind Store Err (rlift Store Err (itemService_getFor member itemId)) (fun item =>
     let action := mkAction item ItemUnlike (id item) in
     rbind Store Err (rlift Store Err (actionService_postMany member [action])) (fun _ =>
     rret Store Err newItemLike)))).

End ItemLikeRoutes.

Section PublishRoute.

Variables Store Err PublicationStatus ItemPublished : Type.
(** [itemService.get(member, repositories, itemId, permission)]. *)
Variable itemService_getWith : ident -> ident -> PermissionLevel -> Store -> (Err + Item) * Store.
(** [publicationService.computeStateForItem] and [itemPublishedService.post]. *)
Variable computeStateForItem : ident -> ident -> Store -> (Err + PublicationStatus) * Store.
Variable itemPublishedService_post :
  ident -> Item -> PublicationStatus -> Store -> (Err + ItemPublished) * Store.

(** The handler of [POST /collections/:itemId/publish]. *)
Definition publishRoute (member itemId : ident) : RM Store Err ItemPublished :=
  transaction Store Err
    (rbind Store Err (rlift Store Err (itemService_getWith member itemId Admin)) (fun item =>
     rbind Store Err (rlift Store Err (computeStateForItem member (id item))) (fun status =>
     rlift Store Err (itemPublishedService_post member item status)))).

End PublishRoute.

(* ------------------------------------------------------------------------- *)
(** * FileService
    (src/src/services/auth/plugins/password/test/fixtures/password.ts) *)

Module FileService.

(** The calls FileService makes on its [FileRepository], with their
    arguments (the uploaded stream left out). *)
Inductive RepoCall :=
| CallUploadFile (filepath memberId : string) (mimetype : option string)
| CallGetFile (filepath id : string)
| CallGetUrl (expiration : option nat) (filepath id : string)
| CallDeleteFile (filepath : string)
| CallDeleteFolder (folderPath : string)
| CallCopyFile (newId : option string) (memberId originalPath newFilePath : string)
               (mimetype : option string)
| CallCopyFolder (originalFolderPath newFolderPath : string).

(** The errors FileService throws; [RepositoryError] stands for a rejection of
    a repository call that FileService lets through. *)
Inductive FileError :=
| UploadFileInvalidParameterError (filepath : string)
| UploadFileUnexpectedError (mimetype : option string) (memberId : string)
| DownloadFileInvalidParameterError (filepath id : option string)
| DeleteFileInvalidPathError (p : string)
| DeleteFolderInvalidPathError (p : string)
| CopyFileInvalidPathError (p : string)
| CopyFolderInvalidPathError (p : string)
| RepositoryError (c : RepoCall).

(** An operation over the trace of repository calls made so far. *)
Definition FM (A : Type) := list RepoCall -> (FileError + A) * list RepoCall.

Definition fret {A} (a : A) : FM A := fun tr => (inr a, tr).
Definition fthrow {A} (e : FileError) : FM A := fun tr => (inl e, tr).
Definition fbind {A B} (m : FM A) (k : A -> FM B) : FM B :=
  fun tr => match m tr with
            | (inl e, tr') => (inl e, tr')
            | (inr a, tr') => k a tr'
            end.
(** [try { await m } catch (e) { h(e) }]. *)
Definition fcatch {A} (m : FM A) (h : FileError -> FM A) : FM A :=
  fun tr => match m tr with
            | (inl e, tr') => h e tr'
            | ok => ok
            end.
(** A promise that is not awaited: its calls are made, its outcome dropped. *)
Definition detach {A} (m : FM A) : FM unit := fun tr => (inr tt, snd (m tr)).

(** JavaScript truthiness of an optional string: its value when non-empty. *)
Definition truthy (o : option string) : option string :=
  match o with
  | Some s => if String.eqb s "" then None else Some s
  | None => None
  end.

Section Service.

Variable Readable : Type.
(** Whether a repository call resolves. *)
Variable repoOk : RepoCall -> bool.
(** What [getFile], [getUrl], [copyFile] and [copyFolder] of the repository
    resolve to. *)
Variable repoGetFile : string -> string -> Readable.
Variable repoGetUrl : option nat -> string -> string -> string.
Variables CopyFileResult CopyFolderResult : Type.
Variable repoCopyFile :
  option string -> string -> string -> string -> option string -> CopyFileResult.
Variable repoCopyFolder : string -> string -> CopyFolderResult.

(** An awaited call of the repository. *)
Definition callRepo {A} (c : RepoCall) (v : A) : FM A :=
  fun tr => (if repoOk c then inr v else inl (RepositoryError c), tr ++ [c]).

Record UploadData := mkUploadData {
  file : option Readable;
  filepath : string;
  mimetype : option string
}.

(** [FileService.delete]. *)
Definition delete (memberId filepath : string) : FM unit :=
  if String.length filepath =? 0 then fthrow (DeleteFileInvalidPathError filepath)
  else callRepo (CallDeleteFile filepath) tt.

(** [FileService.upload]. *)
Definition upload (memberId : string) (data : UploadData) : FM UploadData :=
  if match file data with None => true | Some _ => false end
     || String.eqb (filepath data) "" then
    fthrow (UploadFileInvalidParameterError (filepath data))
  else
    fbind
      (fcatch (callRepo (CallUploadFile (filepath data) memberId (mimetype data)) tt)
              (fun _ =>
                 (* rollback uploaded file *)
                 fbind (detach (delete memberId (filepath data))) (fun _ =>
                 fthrow (UploadFileUnexpectedError (mimetype data) memberId))))
      (fun _ => fret data).

(** [FileService.getFile], with [data.id] and [data.path]. *)
Definition getFile (id filepath : option string) : FM Readable :=
  match truthy filepath, truthy id with
  | Some fp, Some i => callRepo (CallGetFile fp i) (repoGetFile fp i)
  | _, _ => fthrow (DownloadFileInvalidParameterError filepath id)
  end.

(** [FileService.getUrl]. *)
Definition getUrl (expiration : option nat) (id filepath : option string) : FM string :=
  match truthy filepath, truthy id with
  | Some fp, Some i => callRepo (CallGetUrl expiration fp i) (repoGetUrl expiration fp i)
  | _, _ => fthrow (DownloadFileInvalidParameterError filepath id)
  end.

(** [FileService.deleteFolder]. *)
Definition deleteFolder (memberId folderPath : string) : FM unit :=
  if String.length folderPath =? 0 then fthrow (DeleteFolderInvalidPathError folderPath)
  else callRepo (CallDeleteFolder folderPath) tt.

(** [FileService.copy]. *)
Definition copy (memberId : string) (newId : option string)
    (newFilePath originalPath : string) (mimetype : option string) : FM CopyFileResult :=
  if String.length originalPath =? 0 then fthrow (CopyFileInvalidPathError originalPath)
  else if String.length newFilePath =? 0 then fthrow (CopyFileInvalidPathError newFilePath)
  else callRepo (CallCopyFile newId memberId originalPath newFilePath mimetype)
                (repoCopyFile newId memberId originalPath newFilePath mimetype).

(** [FileService.copyFolder]. *)
Definition copyFolder (memberId originalFolderPath newFolderPath : string)
    : FM CopyFolderResult :=
  if String.length originalFolderPath =? 0 then
    fthrow (CopyFolderInvalidPathError originalFolderPath)
  else if String.length newFolderPath =? 0 then
    fthrow (CopyFolderInvalidPathError newFolderPath)
  else callRepo (CallCopyFolder originalFolderPath newFolderPath)
                (repoCopyFolder originalFolderPath newFolderPath).

End Service.

Arguments mkUploadData {Readable} file filepath mimetype.
Arguments file {Readable} u.
Arguments filepath {Readable} u.
Arguments mimetype {Readable} u.

(** The arguments of a repository call that FileService checks before making
    it: the file and folder paths, and the item id of [getFile] and [getUrl].
    The [memberId] of every call and the [newId] of [copyFile] are passed
    through unchecked and are not listed. *)
Definition checkedArgs (c : RepoCall) : list string :=
  match c with
  | CallUploadFile fp _ _ => [fp]
  | CallGetFile fp i => [fp; i]
  | CallGetUrl _ fp i => [fp; i]
  | CallDeleteFile fp => [fp]
  | CallDeleteFolder fp => [fp]
  | CallCopyFile _ _ o n _ => [o; n]
  | CallCopyFolder o n => [o; n]
  end.

(** An operation only appends calls whose checked arguments are all
    non-empty. *)
Definition callsNonEmptyPaths {A} (m : FM A) : Prop :=
  forall tr, exists new, snd (m tr) = tr ++ new /\
    Forall (fun c => Forall (fun p => p <> ""%string) (checkedArgs c)) new.

End FileService.

(* ------------------------------------------------------------------------- *)
(** * Sample stores *)

Module Samples.
Local Open Scope string_scope.

(** A folder [p] with child [x] and grandchild [c], and a root folder [y];
    [a] administers [p] and [y], [s] writes on [p] and reads [x] explicitly. *)
Definition db0 : DB := mkDB
  [mkItem "p" ["p"]; mkItem "x" ["p"; "x"]; mkItem "c" ["p"; "x"; "c"];
   mkItem "y" ["y"]]
  [mkMembership "a" ["p"] Admin; mkMembership "a" ["y"] Admin;
   mkMembership "s" ["p"] Write; mkMembership "s" ["p"; "x"] Read].

(** [db0] where [s] also writes on [y]. *)
Definition db1 : DB :=
  mkDB (items db0) (memberships db0 ++ [mkMembership "s" ["y"] Write]).

Definition itemX : Item := mkItem "x" ["p"; "x"].
Definition itemY : Item := mkItem "y" ["y"].

Definition allUuid (_ : string) : bool := true.

(** A bulk handler that answers with the ids it received. *)
Definition echoHandler (ids : list string) (_ : option string) (st : unit)
  : list string * unit := (ids, st).

End Samples.

(* ------------------------------------------------------------------------- *)
(** * Lemmas on paths *)

Lemma ltree_eqb_eq : forall a b, ltree_eqb a b = true <-> a = b.
Proof.
  induction a as [|x a IH]; destruct b as [|y b]; simpl; try (split; congruence).
  rewrite andb_true_iff, String.eqb_eq, IH. split; [intros [-> ->]; reflexivity|].
  intros H; injection H; auto.
Qed.

Lemma is_prefix_refl : forall a, is_prefix a a = true.
Proof. induction a; simpl; auto. rewrite String.eqb_refl; auto. Qed.

Lemma is_prefix_app : forall a b, is_prefix a b = true <-> exists c, b = a ++ c.
Proof.
  induction a as [|x a IH]; intros b; simpl.
  - split; eauto.
  - destruct b as [|y b].
    + split; [discriminate|]. intros [c Hc]; discriminate.
    + rewrite andb_true_iff, String.eqb_eq, IH. split.
      * intros [-> [c ->]]. eauto.
      * intros [c Hc]. injection Hc as -> ->. eauto.
Qed.

Lemma is_prefix_length : forall a b, is_prefix a b = true -> length a <= length b.
Proof.
  intros a b H. apply is_prefix_app in H as [c ->]. rewrite length_app. lia.
Qed.

Lemma skipn_prefix : forall (a c : ltree), skipn (length a) (a ++ c) = c.
Proof. induction a; simpl; auto. Qed.

Lemma string_append_assoc : forall s t u : string,
  (s ++ t ++ u)%string = ((s ++ t) ++ u)%string.
Proof. induction s; intros; simpl; congruence. Qed.

Lemma string_append_empty : forall s : string, (s ++ "")%string = s.
Proof. induction s as [|c s IH]; simpl; [reflexivity | rewrite IH; reflexivity]. Qed.

Lemma string_prefix_append : forall s t : string, String.prefix s (s ++ t) = true.
Proof.
  induction s as [|c s IH]; intros t; simpl.
  - destruct t; reflexivity.
  - destruct (Ascii.ascii_dec c c); [apply IH | congruence].
Qed.

Lemma concat_cons2 : forall x y l,
  String.concat "." (x :: y :: l) = (x ++ "." ++ String.concat "." (y :: l))%string.
Proof. reflexivity. Qed.

Lemma concat_app_prefix : forall a c, a <> [] ->
  exists t, String.concat "." (a ++ c) = (String.concat "." a ++ t)%string.
Proof.
  induction a as [|x a IH]; intros c Ha; [congruence|].
  destruct a as [|y a].
  - destruct c as [|z c].
    + exists ""%string. simpl. symmetry. apply string_append_empty.
    + exists ("." ++ String.concat "." (z :: c))%string. reflexivity.
  - destruct (IH c) as [t Ht]; [discriminate|].
    exists t. cbn [app] in Ht |- *. rewrite !concat_cons2, Ht.
    rewrite !string_append_assoc. reflexivity.
Qed.

(** ltree descendant-or-self implies the string test of [run]. *)
Lemma encodePath_startsWith : forall a b,
  is_prefix a b = true -> String.prefix (encodePath a) (encodePath b) = true.
Proof.
  intros a b H. apply is_prefix_app in H as [c ->]. unfold encodePath.
  destruct a as [|x a]; [simpl; destruct (String.concat "." c); reflexivity|].
  destruct (concat_app_prefix (x :: a) c) as [t Ht]; [discriminate|].
  cbn [app] in Ht |- *. unfold ident in *. rewrite Ht.
  apply string_prefix_append.
Qed.

Lemma rewritePath_self : forall old new, rewritePath old new old = new.
Proof.
  intros. unfold rewritePath. rewrite is_prefix_refl.
  replace (skipn (length old) old) with (@nil ident : list ident).
  - apply app_nil_r.
  - rewrite <- (app_nil_r old) at 2. rewrite skipn_prefix. reflexivity.
Qed.

Lemma rewritePath_eq_new : forall old new p,
  is_prefix old p = true -> rewritePath old new p = new -> p = old.
Proof.
  intros old new p H Hr. unfold rewritePath in Hr. rewrite H in Hr.
  apply is_prefix_app in H as [c ->]. rewrite skipn_prefix in Hr.
  rewrite <- (app_nil_r new) in Hr at 2. apply app_inv_head in Hr. subst.
  apply app_nil_r.
Qed.

Lemma existsb_false_forall : forall {A} (f : A -> bool) l,
  existsb f l = false <-> forall x, In x l -> f x = false.
Proof.
  intros A f l. induction l as [|y l IH]; simpl; [tauto|].
  rewrite orb_false_iff, IH. split.
  - intros [Hy Hl] x [<-|Hx]; auto.
  - intros H. auto.
Qed.

Lemma fold_max_In : forall n l, In n l -> n <= fold_right Nat.max 0 l.
Proof.
  induction l as [|x l IH]; simpl; [tauto|]. intros [->|H]; [lia|].
  specialize (IH H). lia.
Qed.

(* ------------------------------------------------------------------------- *)
(** * The shape of a move *)

Lemma moveItem_effect : forall actor item parentItem db,
  moveItem actor item parentItem db =
  (inr tt,
   let (inserts, deletes) := moveHousekeeping item actor db parentItem in
   let db1 := itemService_move item parentItem db in
   let db2 := if negb (length inserts =? 0) then createMany inserts db1 else db1 in
   if negb (length deletes =? 0) then deleteManyMatching deletes db2 else db2).
Proof.
  intros. unfold moveItem, bind, query, update, ret.
  destruct (moveHousekeeping item actor db parentItem) as [ins dels].
  destruct (negb (length ins =? 0)), (negb (length dels =? 0)); reflexivity.
Qed.

Lemma noParentCheck_inv : forall item db r db',
  noParentCheck item db = (r, db') ->
  db' = db /\
  ((falsy (parentPath item) = true /\ r = inl (InvalidMoveTarget None))
   \/ (falsy (parentPath item) = false /\ r = inr None)).
Proof.
  unfold noParentCheck, throw, ret. intros item db r db' H.
  destruct (falsy (parentPath item)); injection H as <- <-; auto.
Qed.

Lemma parentCheck_inv : forall maxL actor item q db r db',
  parentCheck maxL actor item q db = (r, db') ->
  db' = db /\
  (r = inl (ItemNotFound q) /\ itemService_get q db = None
   \/ exists parentItem, itemService_get q db = Some parentItem /\
      ((String.prefix (encodePath (path item)) (encodePath (path parentItem))
        || match parentPath item with
           | Some pp => String.eqb pp (encodePath (path parentItem))
           | None => false end) = true
         /\ r = inl (InvalidMoveTarget (Some q))
       \/ (String.prefix (encodePath (path item)) (encodePath (path parentItem))
           || match parentPath item with
              | Some pp => String.eqb pp (encodePath (path parentItem))
              | None => false end) = false /\
          (canWrite actor parentItem db = false /\ r = inl (UserCannotWriteItem q)
           \/ canWrite actor parentItem db = true /\
              (maxL < itemDepth parentItem + 1 + getNumberOfLevelsToFarthestChild item db
               /\ r = inl HierarchyTooDeep
               \/ itemDepth parentItem + 1 + getNumberOfLevelsToFarthestChild item db <= maxL
               /\ r = inr (Some parentItem))))).
Proof.
  unfold parentCheck, bind, query, throw, ret. intros maxL actor item q db r db' H.
  destruct (itemService_get q db) as [parentItem|] eqn:Eg.
  2: { injection H as <- <-. auto. }
  split; [|right; exists parentItem; split; [reflexivity|]].
  all: destruct (_ || _) eqn:Ec;
    [injection H as <- <-; auto|].
  all: destruct (canWrite actor parentItem db) eqn:Ew; simpl in H;
    [|injection H as <- <-; auto].
  all: destruct (maxL <? _) eqn:El;
    [apply Nat.ltb_lt in El | apply Nat.ltb_ge in El]; injection H as <- <-;
    auto 8.
Qed.

(** Outcome of the checks of [run] before [moveItem] is reached. *)
Lemma run_unfold : forall maxD maxL actor tid pid db,
  run maxD maxL actor tid pid db =
  match itemService_get tid db with
  | None => (inl (ItemNotFound tid), db)
  | Some item =>
      if negb (canAdmin actor item db) then (inl (UserCannotAdminItem tid), db)
      else if maxD <? getNumberOfDescendants item db then (inl (TooManyDescendants tid), db)
      else match (match pid with
                  | Some q => if String.eqb q "" then noParentCheck item
                              else parentCheck maxL actor item q
                  | None => noParentCheck item
                  end) db with
           | (inl e, db1) => (inl e, db1)
           | (inr p, db1) => moveItem actor item p db1
           end
  end.
Proof.
  intros. unfold run, bind, query, throw.
  destruct (itemService_get tid db); [|reflexivity].
  destruct (negb _); [reflexivity|]. destruct (_ <? _); reflexivity.
Qed.

Lemma run_error_unchanged : forall maxD maxL actor tid pid db e db',
  run maxD maxL actor tid pid db = (inl e, db') -> db' = db.
Proof.
  intros maxD maxL actor tid pid db e db' H. rewrite run_unfold in H.
  destruct (itemService_get tid db) as [item|]; [|congruence].
  destruct (negb _); [congruence|]. destruct (_ <? _); [congruence|].
  destruct (match pid with
            | Some q => if String.eqb q "" then noParentCheck item
                        else parentCheck maxL actor item q
            | None => noParentCheck item end db) as [[e1|p] db1] eqn:Ec.
  - injection H as _ <-.
    destruct pid as [q|]; [destruct (String.eqb q "")|];
      first [apply noParentCheck_inv in Ec | apply parentCheck_inv in Ec]; tauto.
  - rewrite moveItem_effect in H. discriminate.
Qed.

(** What a successful move has checked, and the write it performs. *)
Lemma run_ok_inv : forall maxD maxL actor tid pid db r db',
  run maxD maxL actor tid pid db = (inr r, db') ->
  exists item, itemService_get tid db = Some item /\
    canAdmin actor item db = true /\
    getNumberOfDescendants item db <= maxD /\
    (destinationOf pid db = None /\ falsy (parentPath item) = false
     \/ exists q parentItem, pid = Some q /\ q <> ""%string /\
        destinationOf pid db = Some parentItem /\
        String.prefix (encodePath (path item)) (encodePath (path parentItem)) = false /\
        canWrite actor parentItem db = true /\
        itemDepth parentItem + 1 + getNumberOfLevelsToFarthestChild item db <= maxL) /\
    moveItem actor item (destinationOf pid db) db = (inr r, db').
Proof.
  intros maxD maxL actor tid pid db r db' H. rewrite run_unfold in H.
  destruct (itemService_get tid db) as [item|]; [|congruence].
  exists item. split; [reflexivity|].
  destruct (canAdmin actor item db); simpl in H; [|congruence].
  destruct (maxD <? _) eqn:Ed; [congruence|]. apply Nat.ltb_ge in Ed.
  do 2 (split; [auto|]).
  destruct pid as [q|].
  - unfold destinationOf. destruct (String.eqb q "") eqn:Eq.
    + destruct (noParentCheck item db) as [c db1] eqn:Ec.
      apply noParentCheck_inv in Ec as [-> [[? ->]|[? ->]]]; [congruence|]. auto.
    + destruct (parentCheck maxL actor item q db) as [c db1] eqn:Ec.
      apply parentCheck_inv in Ec as [-> [[-> _]|[Y [EY Hc]]]]; [congruence|].
      rewrite EY.
      destruct Hc as [[_ ->]|[Hs [[_ ->]|[Hw [[_ ->]|[Hl ->]]]]]]; try congruence.
      split; auto. right. exists q, Y.
      apply orb_false_iff in Hs as [Hs _].
      repeat split; auto. intros ->. discriminate.
  - simpl. destruct (noParentCheck item db) as [c db1] eqn:Ec.
    apply noParentCheck_inv in Ec as [-> [[? ->]|[? ->]]]; [congruence|]. auto.
Qed.

Lemma parentPath_removelast : forall item, 2 <= length (path item) ->
  parentPath item = Some (encodePath (removelast (path item))).
Proof.
  intros [i p] H. unfold parentPath. simpl in *.
  destruct p as [|x [|y l]]; simpl in H; [lia | lia | reflexivity].
Qed.

Lemma parentPath_root : forall item, length (path item) <= 1 -> parentPath item = None.
Proof.
  intros [i p] H. unfold parentPath. simpl in *.
  destruct p as [|x [|y l]]; simpl in H; [reflexivity | reflexivity | lia].
Qed.

Lemma parentPath_truthy_length : forall item,
  falsy (parentPath item) = false -> 2 <= length (path item).
Proof.
  intros item H. destruct (Nat.le_gt_cases 2 (length (path item))) as [?|Hl]; [auto|].
  rewrite parentPath_root in H by lia. discriminate.
Qed.

(** The store after [moveItem]: rewritten items, memberships rewritten by the
    cascade, then the inserts appended, then the deletes filtered out. *)
Lemma moveItem_result : forall actor item parentItem db db',
  moveItem actor item parentItem db = (inr tt, db') ->
  let ins := fst (moveHousekeeping item actor db parentItem) in
  let dels := snd (moveHousekeeping item actor db parentItem) in
  items db' = items (itemService_move item parentItem db) /\
  memberships db' =
    (if negb (length dels =? 0)
     then filter (fun m => negb (existsb (fun d => matches d m) dels))
     else fun l => l)
      (memberships (itemService_move item parentItem db)
       ++ (if negb (length ins =? 0) then ins else [])).
Proof.
  intros actor item parentItem db db' H. rewrite moveItem_effect in H.
  cbv zeta. destruct (moveHousekeeping item actor db parentItem) as [ins dels].
  injection H as <-. simpl.
  destruct (negb (length ins =? 0)), (negb (length dels =? 0)); simpl;
    rewrite ?app_nil_r; auto.
Qed.

Lemma levels_bound : forall item db it c,
  In it (items db) -> path it = path item ++ c ->
  length c <= getNumberOfLevelsToFarthestChild item db.
Proof.
  intros item db it c Hin Hp. destruct c as [|x c]; [simpl; lia|].
  unfold getNumberOfLevelsToFarthestChild. apply fold_max_In.
  replace (length (x :: c)) with (length (path it) - length (path item))
    by (rewrite Hp, length_app; lia).
  apply (in_map (fun it => length (path it) - length (path item))).
  apply filter_In. split; [exact Hin|].
  unfold strictDescendant. rewrite Hp. apply andb_true_iff. split.
  - apply is_prefix_app. eauto.
  - apply Nat.ltb_lt. rewrite length_app. simpl. lia.
Qed.

(* ------------------------------------------------------------------------- *)
(** * Claims *)

(** C4: on every successful move, the membership housekeeping is computed on
    the store before the path rewrite, and its inserts and then its deletes are
    applied after the rewrite. *)
Theorem move_housekeeping_before_path_rewrite :
  forall maxD maxL actor tid pid db db',
  run maxD maxL actor tid pid db = (inr tt, db') ->
  exists item, itemService_get tid db = Some item /\
    let parentItem := destinationOf pid db in
    let (inserts, deletes) := moveHousekeeping item actor db parentItem in
    db' = (if negb (length deletes =? 0) then deleteManyMatching deletes else fun d => d)
            ((if negb (length inserts =? 0) then createMany inserts else fun d => d)
               (itemService_move item parentItem db)).
Proof.
  intros maxD maxL actor tid pid db db' H.
  apply run_ok_inv in H as [item [Eg [_ [_ [_ Hm]]]]].
  exists item. split; [exact Eg|]. rewrite moveItem_effect in Hm. cbv zeta.
  destruct (moveHousekeeping item actor db (destinationOf pid db)) as [ins dels].
  injection Hm as <-. destruct (negb (length ins =? 0)), (negb (length dels =? 0)); reflexivity.
Qed.

Lemma move_housekeeping_before_path_rewrite_witness :
  exists item, itemService_get "x"%string Samples.db0 = Some item /\
    let parentItem := destinationOf None Samples.db0 in
    let (inserts, deletes) := moveHousekeeping item "a"%string Samples.db0 parentItem in
    snd (run 10 5 "a"%string "x"%string None Samples.db0) =
      (if negb (length deletes =? 0) then deleteManyMatching deletes else fun d => d)
        ((if negb (length inserts =? 0) then createMany inserts else fun d => d)
           (itemService_move item parentItem Samples.db0)).
Proof.
  apply (move_housekeeping_before_path_rewrite 10 5 "a"%string "x"%string None Samples.db0).
  vm_compute. reflexivity.
Defined.

(** C10: a POST /password/nouser whose email matches no member is answered 204
    No Content, the 404 set in the missing-member branch being overwritten; a
    successful password set is answered with the same 204. *)
Theorem password_nouser_missing_member_204 :
  forall (Store Member Err : Type) (member_id : Member -> ident)
         (getByEmail : Store -> string -> option Member)
         (validate : ident -> Store -> (Err + unit) * Store)
         (postPassword : Member -> string -> Store -> (Err + unit) * Store)
         email password st rep,
  (getByEmail st email = None ->
   passwordNoUser Store Member Err member_id getByEmail validate postPassword
     email password (st, rep) = (inr tt, (st, mkReply NO_CONTENT)))
  /\
  (forall m st1 st2, getByEmail st email = Some m ->
   validate (member_id m) st = (inr tt, st1) ->
   postPassword m password st1 = (inr tt, st2) ->
   passwordNoUser Store Member Err member_id getByEmail validate postPassword
     email password (st, rep) = (inr tt, (st2, mkReply NO_CONTENT))).
Proof.
  intros. unfold passwordNoUser, transaction, rbind, rquery, rlift, status; simpl.
  split.
  - intros ->. reflexivity.
  - intros m st1 st2 -> Hv Hp. simpl. rewrite Hv; simpl. rewrite Hp. reflexivity.
Qed.

Lemma password_nouser_missing_member_204_witness :
  passwordNoUser unit unit unit (fun _ => ""%string) (fun _ _ => None)
    (fun _ st => (inr tt, st)) (fun _ _ st => (inr tt, st))
    "nobody@example.org"%string "pw"%string (tt, mkReply 200) = (inr tt, (tt, mkReply NO_CONTENT)).
Proof.
  destruct (password_nouser_missing_member_204 unit unit unit (fun _ => ""%string)
              (fun _ _ => None) (fun _ st => (inr tt, st)) (fun _ _ st => (inr tt, st))
              "nobody@example.org"%string "pw"%string tt (mkReply 200)) as [H _].
  apply H. reflexivity.
Defined.

(** C8: a bulk move, copy or delete request with more than
    MAX_TARGETS_FOR_MODIFY_REQUEST ids is rejected by schema validation with a
    bad request before the handler runs, the store untouched; one with exactly
    MAX_TARGETS_FOR_MODIFY_REQUEST (well-formed) ids reaches the handler. *)
Theorem modify_many_target_limit :
  forall (MAX : nat) (isUuid : string -> bool) (St R : Type)
         (handler : list string -> option string -> St -> R * St)
         (delHandler : list string -> St -> R * St)
         (ids : list string) (body : ParentIdBody) (st : St),
  (MAX < length ids ->
   moveManyRoute MAX isUuid handler ids body st = (BadRequest, st) /\
   copyManyRoute MAX isUuid handler ids body st = (BadRequest, st) /\
   deleteManyRoute MAX isUuid delHandler ids st = (BadRequest, st))
  /\
  (length ids = MAX -> forallb isUuid ids = true ->
   parentIdBody_valid isUuid body = true ->
   moveManyRoute MAX isUuid handler ids body st =
     (Handled (fst (handler ids (parentId body) st)), snd (handler ids (parentId body) st)) /\
   copyManyRoute MAX isUuid handler ids body st =
     (Handled (fst (handler ids (parentId body) st)), snd (handler ids (parentId body) st)) /\
   deleteManyRoute MAX isUuid delHandler ids st =
     (Handled (fst (delHandler ids st)), snd (delHandler ids st))).
Proof.
  intros. unfold moveManyRoute, copyManyRoute, deleteManyRoute, validated,
    modifyManyQuerystring_valid, idsQuery_valid.
  split.
  - intros Hlt. assert (E : (length ids <=? MAX) = false) by (apply Nat.leb_gt; lia).
    rewrite E. simpl. auto.
  - intros Heq Hu Hb. rewrite Heq, Nat.leb_refl, Hu, Hb. simpl.
    destruct (handler ids (parentId body) st), (delHandler ids st). auto.
Qed.

Lemma modify_many_target_limit_witness :
  moveManyRoute 2 Samples.allUuid Samples.echoHandler ["i1"%string; "i2"%string; "i3"%string]%string
    (mkBody None []) tt = (BadRequest, tt) /\
  moveManyRoute 2 Samples.allUuid Samples.echoHandler ["i1"%string; "i2"%string]%string
    (mkBody None ["extra"%string]) tt = (Handled ["i1"%string; "i2"%string]%string, tt).
Proof.
  destruct (modify_many_target_limit 2 Samples.allUuid unit (list string)
              Samples.echoHandler (fun ids st => (ids, st)) ["i1"%string; "i2"%string; "i3"%string]%string
              (mkBody None []) tt) as [H1 _].
  destruct (modify_many_target_limit 2 Samples.allUuid unit (list string)
              Samples.echoHandler (fun ids st => (ids, st)) ["i1"%string; "i2"%string]%string
              (mkBody None ["extra"%string]) tt) as [_ H2].
  split.
  - apply H1. simpl. lia.
  - apply H2; reflexivity.
Defined.

(** C3 (amended): a move of an existing item whose destination is the item
    itself, one of its descendants, its current parent, or the root for a
    root item never succeeds and leaves the store unchanged. The error is
    UserCannotAdminItem when the actor cannot admin the item; otherwise
    TooManyDescendants when the item has more than MAX_DESCENDANTS_FOR_MOVE
    descendants; otherwise InvalidMoveTarget. *)
Theorem move_invalid_target_rejected :
  forall maxD maxL actor tid pid db item,
  itemService_get tid db = Some item ->
  ((exists q target, pid = Some q /\ q <> ""%string /\ itemService_get q db = Some target /\
      (is_prefix (path item) (path target) = true
       \/ (2 <= length (path item) /\ path target = removelast (path item))))
   \/ ((pid = None \/ pid = Some ""%string) /\ length (path item) <= 1)) ->
  (exists e, run maxD maxL actor tid pid db = (inl e, db)) /\
  (canAdmin actor item db = false ->
   run maxD maxL actor tid pid db = (inl (UserCannotAdminItem tid), db)) /\
  (canAdmin actor item db = true -> maxD < getNumberOfDescendants item db ->
   run maxD maxL actor tid pid db = (inl (TooManyDescendants tid), db)) /\
  (canAdmin actor item db = true -> getNumberOfDescendants item db <= maxD ->
   exists o, run maxD maxL actor tid pid db = (inl (InvalidMoveTarget o), db)).
Proof.
  intros maxD maxL actor tid pid db item Eg Hdest.
  assert (Hinv : canAdmin actor item db = true -> getNumberOfDescendants item db <= maxD ->
            exists o, run maxD maxL actor tid pid db = (inl (InvalidMoveTarget o), db)).
  { intros Ha Hd. rewrite run_unfold, Eg, Ha. simpl.
    assert (E : (maxD <? getNumberOfDescendants item db) = false) by (apply Nat.ltb_ge; lia).
    rewrite E.
    destruct Hdest as [[q [target [-> [Hq [Et Hrel]]]]] | [Hp Hlen]].
    - apply String.eqb_neq in Hq. rewrite Hq.
      unfold parentCheck, bind, query, throw. rewrite Et. cbv zeta.
      assert (Ec : (String.prefix (encodePath (path item)) (encodePath (path target))
                    || match parentPath item with
                       | Some pp => String.eqb pp (encodePath (path target))
                       | None => false end) = true).
      { destruct Hrel as [Hpre | [Hl Hpath]].
        - rewrite encodePath_startsWith; auto.
        - rewrite (parentPath_removelast item Hl), Hpath, String.eqb_refl, orb_true_r.
          reflexivity. }
      rewrite Ec. eauto.
    - unfold noParentCheck, throw. rewrite (parentPath_root item Hlen).
      destruct Hp as [-> | ->]; simpl; eauto. }
  assert (Hadm : canAdmin actor item db = false ->
            run maxD maxL actor tid pid db = (inl (UserCannotAdminItem tid), db)).
  { intros Ea. rewrite run_unfold, Eg, Ea. reflexivity. }
  assert (Hdesc : canAdmin actor item db = true -> maxD < getNumberOfDescendants item db ->
            run maxD maxL actor tid pid db = (inl (TooManyDescendants tid), db)).
  { intros Ea Hd. apply Nat.ltb_lt in Hd. rewrite run_unfold, Eg, Ea. simpl.
    rewrite Hd. reflexivity. }
  refine (conj _ (conj Hadm (conj Hdesc Hinv))).
  destruct (canAdmin actor item db) eqn:Ea.
  - destruct (maxD <? getNumberOfDescendants item db) eqn:Ed.
    + apply Nat.ltb_lt in Ed. eauto.
    + apply Nat.ltb_ge in Ed. destruct (Hinv eq_refl Ed) as [o Ho]. eauto.
  - eauto.
Qed.

Lemma move_invalid_target_rejected_witness :
  exists o, run 10 5 "a"%string "x"%string (Some "c"%string) Samples.db0
            = (inl (InvalidMoveTarget o), Samples.db0).
Proof.
  apply (move_invalid_target_rejected 10 5 "a"%string "x"%string (Some "c"%string)
           Samples.db0 Samples.itemX); try reflexivity.
  - left. exists "c"%string, (mkItem "c"%string ["p"; "x"; "c"]%string).
    repeat split; [discriminate | left; reflexivity].
  - vm_compute. lia.
Defined.

(** C3 counterexample: moving [x] into itself as a member who cannot admin it
    fails with UserCannotAdminItem, not InvalidMoveTarget. *)
Lemma move_into_self_by_non_admin :
  run 10 5 "s"%string "x"%string (Some "x"%string) Samples.db0
    = (inl (UserCannotAdminItem "x"%string), Samples.db0) /\
  forall o, fst (run 10 5 "s"%string "x"%string (Some "x"%string) Samples.db0)
            <> inl (InvalidMoveTarget o).
Proof.
  split; [vm_compute; reflexivity|].
  intros o. vm_compute. discriminate.
Qed.

(** C5 (amended): a single-item move fails only with ItemNotFound,
    UserCannotAdminItem, TooManyDescendants (when the item has more than
    MAX_DESCENDANTS_FOR_MOVE descendants), InvalidMoveTarget,
    UserCannotWriteItem or HierarchyTooDeep, and a failed move leaves the
    store unchanged. *)
Theorem move_error_cases :
  forall maxD maxL actor tid pid db e db',
  run maxD maxL actor tid pid db = (inl e, db') ->
  db' = db /\
  match e with
  | ItemNotFound i => i = tid \/ pid = Some i
  | UserCannotAdminItem i => i = tid
  | TooManyDescendants i =>
      i = tid /\ exists item, itemService_get tid db = Some item
                              /\ maxD < getNumberOfDescendants item db
  | InvalidMoveTarget o => o = None \/ o = pid
  | UserCannotWriteItem i => pid = Some i
  | HierarchyTooDeep =>
      exists item parentItem, itemService_get tid db = Some item
        /\ destinationOf pid db = Some parentItem
        /\ maxL < itemDepth parentItem + 1 + getNumberOfLevelsToFarthestChild item db
  end.
Proof.
  intros maxD maxL actor tid pid db e db' H.
  split; [eapply run_error_unchanged; eauto|].
  rewrite run_unfold in H.
  destruct (itemService_get tid db) as [item|] eqn:Eg.
  2: { injection H as <- _. auto. }
  destruct (canAdmin actor item db); simpl in H.
  2: { injection H as <- _. reflexivity. }
  destruct (maxD <? getNumberOfDescendants item db) eqn:Ed.
  { injection H as <- _. apply Nat.ltb_lt in Ed. eauto. }
  destruct pid as [q|].
  - unfold destinationOf. destruct (String.eqb q "") eqn:Eq.
    + destruct (noParentCheck item db) as [c db1] eqn:Ec.
      apply noParentCheck_inv in Ec as [-> [[_ ->]|[_ ->]]].
      * injection H as <- _. auto.
      * rewrite moveItem_effect in H. discriminate.
    + destruct (parentCheck maxL actor item q db) as [c db1] eqn:Ec.
      apply parentCheck_inv in Ec as [-> [[-> _]|[Y [EY Hc]]]].
      { injection H as <- _. auto. }
      rewrite EY.
      destruct Hc as [[_ ->]|[_ [[_ ->]|[_ [[Hl ->]|[_ ->]]]]]].
      * injection H as <- _. auto.
      * injection H as <- _. reflexivity.
      * injection H as <- _. eauto.
      * rewrite moveItem_effect in H. discriminate.
  - destruct (noParentCheck item db) as [c db1] eqn:Ec.
    apply noParentCheck_inv in Ec as [-> [[_ ->]|[_ ->]]].
    + injection H as <- _. auto.
    + rewrite moveItem_effect in H. discriminate.
Qed.

Lemma move_error_cases_witness :
  snd (run 10 5 "s"%string "x"%string (Some "x"%string) Samples.db0) = Samples.db0 /\
  "x"%string = "x"%string.
Proof.
  exact (move_error_cases 10 5 "s"%string "x"%string (Some "x"%string) Samples.db0
           (UserCannotAdminItem "x"%string) Samples.db0 eq_refl).
Defined.

(** C5 counterexample: moving [x], which has one descendant, with
    MAX_DESCENDANTS_FOR_MOVE = 0 fails with TooManyDescendants, an error the
    spec's list does not name. *)
Lemma move_too_many_descendants :
  run 0 5 "a"%string "x"%string (Some "y"%string) Samples.db0
    = (inl (TooManyDescendants "x"%string), Samples.db0) /\
  specMoveError (TooManyDescendants "x"%string) = false.
Proof. split; vm_compute; reflexivity. Qed.

(** C6 (amended): a successful move or create keeps every item's depth within
    MAX_TREE_LEVELS. A move to a parent whose depth plus one plus the moved
    subtree's height exceeds MAX_TREE_LEVELS never succeeds and leaves the
    store unchanged, and it fails with HierarchyTooDeep once the checks that
    precede the depth check (admin right, descendant count, valid target,
    write right) pass. A create under a parent whose depth plus one exceeds
    MAX_TREE_LEVELS (or at the root when MAX_TREE_LEVELS is 0) never succeeds
    and leaves the store unchanged, and it fails with HierarchyTooDeep once
    the actor can write the parent, the parent is a folder and it has fewer
    than the maximum number of children. *)
Theorem move_depth_bound :
  forall maxD maxL actor tid pid db,
  (forall r db', depthBounded maxL db ->
     run maxD maxL actor tid pid db = (inr r, db') -> depthBounded maxL db') /\
  (forall item parentItem,
     itemService_get tid db = Some item -> destinationOf pid db = Some parentItem ->
     maxL < itemDepth parentItem + 1 + getNumberOfLevelsToFarthestChild item db ->
     (exists e, run maxD maxL actor tid pid db = (inl e, db)) /\
     (canAdmin actor item db = true -> getNumberOfDescendants item db <= maxD ->
      String.prefix (encodePath (path item)) (encodePath (path parentItem)) = false ->
      parentPath item <> Some (encodePath (path parentItem)) ->
      canWrite actor parentItem db = true ->
      run maxD maxL actor tid pid db = (inl HierarchyTooDeep, db))) /\
  (forall maxC isFolder newId cpid r db', depthBounded maxL db ->
     createItem maxL maxC isFolder actor newId cpid db = (inr r, db') ->
     depthBounded maxL db') /\
  (forall maxC isFolder newId cpid parent,
     itemService_get cpid db = Some parent -> maxL < itemDepth parent + 1 ->
     (exists e, createItem maxL maxC isFolder actor newId (Some cpid) db = (inl e, db)) /\
     (canWrite actor parent db = true -> isFolder parent = true ->
      numberOfChildren parent db < maxC ->
      createItem maxL maxC isFolder actor newId (Some cpid) db
        = (inl (CreateFailure HierarchyTooDeep), db))) /\
  (forall maxC isFolder newId, maxL = 0 ->
     createItem maxL maxC isFolder actor newId None db
       = (inl (CreateFailure HierarchyTooDeep), db)).
Proof.
  intros maxD maxL actor tid pid db.
  refine (conj _ (conj _ (conj _ (conj _ _)))).
  4:{ intros maxC isFolder newId cpid parent Eg Hdeep.
      assert (El : (maxL <? length (path parent ++ [newId])) = true)
        by (apply Nat.ltb_lt; rewrite length_app; unfold itemDepth in Hdeep; simpl; lia).
      split.
      - unfold createItem. rewrite Eg.
        destruct (negb (canWrite actor parent db)); [eauto|].
        destruct (negb (isFolder parent)); [eauto|].
        destruct (maxC <=? numberOfChildren parent db); [eauto|].
        cbv zeta. simpl path. rewrite El. eauto.
      - intros Hw Hf Hc. unfold createItem. rewrite Eg, Hw, Hf. simpl negb. cbv iota.
        assert (Ec : (maxC <=? numberOfChildren parent db) = false) by (apply Nat.leb_gt; lia).
        rewrite Ec. cbv zeta. simpl path. rewrite El. reflexivity. }
  4:{ intros maxC isFolder newId ->. reflexivity. }
  3:{ intros maxC isFolder newId cpid r db' Hb H it Hin.
      unfold createItem in H. destruct cpid as [q|].
      - destruct (itemService_get q db) as [parent|]; [|discriminate].
        destruct (negb (canWrite actor parent db)); [discriminate|].
        destruct (negb (isFolder parent)); [discriminate|].
        destruct (maxC <=? numberOfChildren parent db); [discriminate|].
        cbv zeta in H. simpl path in H.
        destruct (maxL <? length (path parent ++ [newId])) eqn:El; [discriminate|].
        injection H as <- <-. apply Nat.ltb_ge in El.
        unfold insertItem in Hin. simpl in Hin. apply in_app_or in Hin as [Hin | [<- | []]].
        + exact (Hb it Hin).
        + exact El.
      - cbv zeta in H. simpl path in H.
        destruct (maxL <? length [newId]) eqn:El; [discriminate|].
        injection H as <- <-. apply Nat.ltb_ge in El.
        unfold insertItem in Hin. simpl in Hin. apply in_app_or in Hin as [Hin | [<- | []]].
        + exact (Hb it Hin).
        + exact El. }
  - intros r db' Hb H.
    apply run_ok_inv in H as [item [Eg [_ [_ [Hdest Hm]]]]].
    destruct r. apply moveItem_result in Hm as [Hitems _].
    intros it' Hin. rewrite Hitems in Hin. simpl in Hin.
    apply in_map_iff in Hin as [it [<- Hin]]. simpl.
    specialize (Hb it Hin) as Hit.
    unfold rewritePath. destruct (is_prefix (path item) (path it)) eqn:Hp; [|exact Hit].
    apply is_prefix_app in Hp as [c Hc].
    replace (skipn (length (path item)) (path it)) with c by (rewrite Hc, skipn_prefix; auto).
    pose proof (levels_bound item db it c Hin Hc) as Hlev.
    rewrite length_app. unfold newRootPath.
    destruct Hdest as [[-> Hf] | [q [Y [_ [_ [-> [_ [_ Hd]]]]]]]].
    + apply parentPath_truthy_length in Hf. simpl.
      rewrite Hc, length_app in Hit. lia.
    + rewrite length_app. unfold itemDepth in Hd. simpl. lia.
  - intros item parentItem Eg Ed Hdeep. split.
    + destruct (run maxD maxL actor tid pid db) as [[e|r] db'] eqn:Hr.
      * apply run_error_unchanged in Hr as ->. eauto.
      * apply run_ok_inv in Hr as [item' [Eg' [_ [_ [Hdest _]]]]].
        rewrite Eg in Eg'. injection Eg' as <-.
        destruct Hdest as [[Hn _] | [q [Y [_ [_ [EY [_ [_ Hd]]]]]]]]; [congruence|].
        rewrite Ed in EY. injection EY as <-. lia.
    + intros Ha Hn Hs Hpp Hw.
      rewrite run_unfold, Eg, Ha. simpl.
      assert (E : (maxD <? getNumberOfDescendants item db) = false) by (apply Nat.ltb_ge; lia).
      rewrite E.
      destruct pid as [q|]; [|discriminate].
      unfold destinationOf in Ed. destruct (String.eqb q "") eqn:Eq; [discriminate|].
      unfold parentCheck, bind, query, throw. rewrite Ed. cbv zeta.
      assert (Ec : (String.prefix (encodePath (path item)) (encodePath (path parentItem))
                    || match parentPath item with
                       | Some pp => String.eqb pp (encodePath (path parentItem))
                       | None => false end) = false).
      { rewrite Hs. simpl. destruct (parentPath item) as [pp|]; [|reflexivity].
        apply String.eqb_neq. congruence. }
      rewrite Ec, Hw. simpl.
      assert (El : (maxL <? itemDepth parentItem + 1
                            + getNumberOfLevelsToFarthestChild item db) = true)
        by (apply Nat.ltb_lt; lia).
      rewrite El. reflexivity.
Qed.

Lemma move_depth_bound_witness :
  run 10 2 "a"%string "x"%string (Some "y"%string) Samples.db0
    = (inl HierarchyTooDeep, Samples.db0) /\
  createItem 2 10 (fun _ => true) "a"%string "n"%string (Some "x"%string) Samples.db0
    = (inl (CreateFailure HierarchyTooDeep), Samples.db0).
Proof.
  destruct (move_depth_bound 10 2 "a"%string "x"%string (Some "y"%string) Samples.db0)
    as [_ [H [_ [Hc _]]]].
  split.
  - destruct (H Samples.itemX Samples.itemY eq_refl eq_refl) as [_ H2].
    + vm_compute. lia.
    + apply H2; try reflexivity.
      * vm_compute. lia.
      * vm_compute. discriminate.
  - destruct (Hc 10 (fun _ => true) "n"%string "x"%string Samples.itemX eq_refl)
      as [_ H2].
    + vm_compute. lia.
    + apply H2; [reflexivity | reflexivity | vm_compute; lia].
Defined.

(** C6 counterexample: the same too-deep move of [x] under [y], asked by a
    member who cannot admin [x], fails with UserCannotAdminItem. *)
Lemma too_deep_move_by_non_admin :
  2 < itemDepth Samples.itemY + 1
      + getNumberOfLevelsToFarthestChild Samples.itemX Samples.db0 /\
  run 10 2 "s"%string "x"%string (Some "y"%string) Samples.db0
    = (inl (UserCannotAdminItem "x"%string), Samples.db0).
Proof. split; vm_compute; [lia | reflexivity]. Qed.

(** C1: a successful move restores membership minimality. (a) A subject whose
    access to the moved item X was purely inherited from an ancestor, and
    whom the destination (the root included) does not grant the same
    permission, receives an explicit membership at X's new path with the
    permission that was effective before the move. (b) An explicit membership
    of a subject on X is deleted when the destination's ancestor chain already
    grants that subject an equal or higher permission. *)
Theorem move_membership_minimality :
  forall maxD maxL actor tid pid db db' X,
  run maxD maxL actor tid pid db = (inr tt, db') ->
  itemService_get tid db = Some X ->
  let dest := destinationOf pid db in
  (forall s p,
     In s (inheritingSubjects X db) -> hasExplicit s (path X) db = false ->
     effectivePermission s (path X) db = Some p ->
     grants (destPermission s dest db) p = false ->
     In (mkMembership s (newRootPath X dest) p) (memberships db'))
  /\
  (forall s q,
     In (mkMembership s (path X) q) (memberships db) ->
     grants (destPermission s dest db) q = true ->
     forall m, In m (memberships db') ->
     ~ (memberId m = s /\ itemPath m = newRootPath X dest)).
Proof.
  intros maxD maxL actor tid pid db db' X H EX dest.
  apply run_ok_inv in H as [item [Eg [_ [_ [_ Hm]]]]].
  rewrite EX in Eg. injection Eg as <-.
  apply moveItem_result in Hm as [_ Hms]. cbv zeta in Hms.
  fold dest in Hms.
  set (new := newRootPath X dest) in *.
  set (ins := fst (moveHousekeeping X actor db dest)) in *.
  set (dels := snd (moveHousekeeping X actor db dest)) in *.
  assert (Hdels : forall d, In d dels -> exists m0, In m0 (memberships db) /\
            is_prefix (path X) (itemPath m0) = true /\
            grants (destPermission (memberId m0) dest db) (permission m0) = true /\
            d = mkMembership (memberId m0) (rewritePath (path X) new (itemPath m0))
                             (permission m0)).
  { intros d Hd. unfold dels, moveHousekeeping in Hd. simpl in Hd.
    apply in_flat_map in Hd as [m0 [Hin Hd]].
    destruct (is_prefix (path X) (itemPath m0)
              && grants (destPermission (memberId m0) dest db) (permission m0)) eqn:Ec;
      [|destruct Hd].
    apply andb_true_iff in Ec as [Ec1 Ec2].
    destruct Hd as [<- | []]. exists m0. auto. }
  split.
  - intros s p Hs Hex Heff Hg.
    assert (Hins : In (mkMembership s new p) ins).
    { unfold ins, moveHousekeeping. simpl. apply in_flat_map. exists s.
      split; [exact Hs|]. rewrite Hex, Heff. fold dest. rewrite Hg. left; reflexivity. }
    assert (Hne : negb (length ins =? 0) = true).
    { destruct ins; [destruct Hins | reflexivity]. }
    rewrite Hms, Hne.
    assert (Hin : In (mkMembership s new p)
                     (memberships (itemService_move X dest db) ++ ins))
      by (apply in_or_app; right; exact Hins).
    destruct (negb (length dels =? 0)); [|exact Hin].
    apply filter_In. split; [exact Hin|].
    apply negb_true_iff. apply existsb_false_forall.
    intros d Hd. destruct (Hdels d Hd) as [m0 [Hm0 [Hpre [_ ->]]]].
    unfold matches. simpl.
    destruct (String.eqb (memberId m0) s) eqn:Es; [|reflexivity].
    destruct (ltree_eqb (rewritePath (path X) new (itemPath m0)) new) eqn:El;
      [|reflexivity].
    apply String.eqb_eq in Es. apply ltree_eqb_eq in El.
    apply rewritePath_eq_new in El; [|exact Hpre].
    exfalso. assert (Hx : hasExplicit s (path X) db = true).
    { apply existsb_exists. exists m0. split; [exact Hm0|].
      rewrite Es, El, String.eqb_refl. simpl. apply ltree_eqb_eq. reflexivity. }
    congruence.
  - intros s q Hm0 Hg m Hm [Hs Hp].
    set (d0 := mkMembership s new q).
    assert (Hd0 : In d0 dels).
    { unfold dels, moveHousekeeping. simpl. apply in_flat_map.
      exists (mkMembership s (path X) q). split; [exact Hm0|]. simpl.
      rewrite is_prefix_refl. fold dest. rewrite Hg. simpl.
      rewrite rewritePath_self. left; reflexivity. }
    assert (Hne : negb (length dels =? 0) = true).
    { destruct dels; [destruct Hd0 | reflexivity]. }
    rewrite Hms, Hne in Hm. apply filter_In in Hm as [_ Hf].
    apply negb_true_iff in Hf. rewrite existsb_false_forall in Hf.
    specialize (Hf d0 Hd0). unfold matches, d0 in Hf. simpl in Hf.
    rewrite Hs, Hp, String.eqb_refl in Hf. simpl in Hf.
    assert (ltree_eqb new new = true) by (apply ltree_eqb_eq; reflexivity).
    congruence.
Qed.

Lemma move_membership_minimality_witness :
  In (mkMembership "a"%string ["x"%string] Admin)
     (memberships (snd (run 10 5 "a"%string "x"%string None Samples.db0)))
  /\
  (forall m, In m (memberships (snd (run 10 5 "a"%string "x"%string (Some "y"%string)
                                       Samples.db1))) ->
     ~ (memberId m = "s"%string /\ itemPath m = ["y"; "x"]%string)).
Proof.
  split.
  - destruct (move_membership_minimality 10 5 "a"%string "x"%string None Samples.db0
                (snd (run 10 5 "a"%string "x"%string None Samples.db0)) Samples.itemX)
      as [Ha _]; [vm_compute; reflexivity | reflexivity |].
    apply (Ha "a"%string Admin); vm_compute; auto.
  - destruct (move_membership_minimality 10 5 "a"%string "x"%string (Some "y"%string)
                Samples.db1
                (snd (run 10 5 "a"%string "x"%string (Some "y"%string) Samples.db1))
                Samples.itemX)
      as [_ Hb]; [vm_compute; reflexivity | reflexivity |].
    apply (Hb "s"%string Read); vm_compute; auto 10.
Defined.

(* ------------------------------------------------------------------------- *)
(** * Further properties of the code *)

(** ** FileService *)

Lemma cnp_fret : forall {A} (a : A), FileService.callsNonEmptyPaths (FileService.fret a).
Proof. intros A a tr. exists []. rewrite app_nil_r. split; [reflexivity | constructor]. Qed.

Lemma cnp_fthrow : forall {A} e, FileService.callsNonEmptyPaths (@FileService.fthrow A e).
Proof. intros A e tr. exists []. rewrite app_nil_r. split; [reflexivity | constructor]. Qed.

Lemma cnp_callRepo : forall {A} repoOk c (v : A),
  Forall (fun p => p <> ""%string) (FileService.checkedArgs c) ->
  FileService.callsNonEmptyPaths (FileService.callRepo repoOk c v).
Proof. intros A repoOk c v Hc tr. exists [c]. split; [reflexivity | auto]. Qed.

Lemma cnp_fbind : forall {A B} (m : FileService.FM A) (k : A -> FileService.FM B),
  FileService.callsNonEmptyPaths m -> (forall a, FileService.callsNonEmptyPaths (k a)) ->
  FileService.callsNonEmptyPaths (FileService.fbind m k).
Proof.
  intros A B m k Hm Hk tr. unfold FileService.fbind.
  destruct (Hm tr) as [n1 [E1 F1]]. destruct (m tr) as [[e|a] tr1] eqn:Em; simpl in E1; subst tr1.
  - exists n1. auto.
  - destruct (Hk a (tr ++ n1)) as [n2 [E2 F2]]. exists (n1 ++ n2).
    rewrite E2, app_assoc. split; [reflexivity | apply Forall_app; auto].
Qed.

Lemma cnp_fcatch : forall {A} (m : FileService.FM A) h,
  FileService.callsNonEmptyPaths m -> (forall e, FileService.callsNonEmptyPaths (h e)) ->
  FileService.callsNonEmptyPaths (FileService.fcatch m h).
Proof.
  intros A m h Hm Hh tr. unfold FileService.fcatch.
  destruct (Hm tr) as [n1 [E1 F1]]. destruct (m tr) as [[e|a] tr1] eqn:Em; simpl in E1; subst tr1.
  - destruct (Hh e (tr ++ n1)) as [n2 [E2 F2]]. exists (n1 ++ n2).
    rewrite E2, app_assoc. split; [reflexivity | apply Forall_app; auto].
  - exists n1. auto.
Qed.

Lemma cnp_detach : forall {A} (m : FileService.FM A),
  FileService.callsNonEmptyPaths m -> FileService.callsNonEmptyPaths (FileService.detach m).
Proof. intros A m Hm tr. apply (Hm tr). Qed.

Lemma length_zero_false : forall s : string, (String.length s =? 0) = false -> s <> ""%string.
Proof. intros s H ->. discriminate. Qed.

Lemma length_zero_true : forall s : string, (String.length s =? 0) = true -> s = ""%string.
Proof. intros [|c s] H; [reflexivity | discriminate]. Qed.

Lemma truthy_some : forall o s, FileService.truthy o = Some s -> o = Some s /\ s <> ""%string.
Proof.
  intros [o|] s H; simpl in H; [|discriminate].
  destruct (String.eqb_spec o ""); [discriminate|]. injection H as <-. auto.
Qed.

(** X1. [upload] rejects a request without a file or with an empty path,
    before any call of the repository. *)
Theorem upload_rejects_missing_file_or_path :
  forall (Readable : Type) repoOk memberId (data : FileService.UploadData Readable) tr,
    FileService.file data = None \/ FileService.filepath data = ""%string ->
    FileService.upload Readable repoOk memberId data tr =
      (inl (FileService.UploadFileInvalidParameterError (FileService.filepath data)), tr).
Proof.
  intros Readable repoOk memberId data tr [H|H]; unfold FileService.upload; rewrite H.
  - reflexivity.
  - destruct (FileService.file data); reflexivity.
Qed.

Lemma upload_rejects_missing_file_or_path_witness :
  FileService.upload unit (fun _ => true) "m"%string
    (FileService.mkUploadData None "f"%string None) [] =
  (inl (FileService.UploadFileInvalidParameterError "f"%string), []).
Proof.
  apply (upload_rejects_missing_file_or_path unit (fun _ => true) "m"%string
           (FileService.mkUploadData None "f"%string None) []).
  left. reflexivity.
Defined.

(** X2. Once its parameters are accepted, [upload] calls the repository once;
    when that call rejects, it deletes the file at the same path (whatever the
    outcome of the deletion) and throws [UploadFileUnexpectedError]; no other
    call is made and nothing is deleted after a successful upload. *)
Theorem upload_rolls_back_failed_upload :
  forall (Readable : Type) repoOk memberId (data : FileService.UploadData Readable) tr,
    FileService.file data <> None -> FileService.filepath data <> ""%string ->
    let call := FileService.CallUploadFile (FileService.filepath data) memberId
                                           (FileService.mimetype data) in
    FileService.upload Readable repoOk memberId data tr =
      if repoOk call then (inr data, tr ++ [call])
      else (inl (FileService.UploadFileUnexpectedError (FileService.mimetype data) memberId),
            tr ++ [call; FileService.CallDeleteFile (FileService.filepath data)]).
Proof.
  intros Readable repoOk memberId data tr Hf Hp call.
  unfold FileService.upload.
  destruct (FileService.file data); [|congruence].
  destruct (String.eqb_spec (FileService.filepath data) ""); [congruence|].
  simpl. unfold FileService.fbind, FileService.fcatch, FileService.detach,
    FileService.delete, FileService.callRepo, FileService.fthrow, FileService.fret.
  fold call. destruct (repoOk call); [reflexivity|].
  destruct (String.length (FileService.filepath data) =? 0) eqn:El.
  - apply length_zero_true in El. congruence.
  - simpl. rewrite <- app_assoc. reflexivity.
Qed.

Lemma upload_rolls_back_failed_upload_witness :
  FileService.upload unit (fun _ => false) "m"%string
    (FileService.mkUploadData (Some tt) "f"%string None) [] =
  (inl (FileService.UploadFileUnexpectedError None "m"%string),
   [FileService.CallUploadFile "f"%string "m"%string None;
    FileService.CallDeleteFile "f"%string]).
Proof.
  apply (upload_rolls_back_failed_upload unit (fun _ => false) "m"%string
           (FileService.mkUploadData (Some tt) "f"%string None) []);
    simpl; discriminate.
Defined.

(** X3. [getFile] and [getUrl] throw [DownloadFileInvalidParameterError] when
    the path or the id is missing or empty, without calling the repository. *)
Theorem download_requires_path_and_id :
  forall (Readable : Type) repoOk repoGetFile repoGetUrl expiration id filepath tr,
    filepath = None \/ filepath = Some ""%string \/ id = None \/ id = Some ""%string ->
    FileService.getFile Readable repoOk repoGetFile id filepath tr =
      (inl (FileService.DownloadFileInvalidParameterError filepath id), tr) /\
    FileService.getUrl repoOk repoGetUrl expiration id filepath tr =
      (inl (FileService.DownloadFileInvalidParameterError filepath id), tr).
Proof.
  intros Readable repoOk repoGetFile repoGetUrl expiration id filepath tr H.
  unfold FileService.getFile, FileService.getUrl.
  assert (Hn : FileService.truthy filepath = None \/ FileService.truthy id = None)
    by (destruct H as [->|[->|[->| ->]]]; auto).
  destruct Hn as [Hn|Hn]; rewrite Hn;
    [| destruct (FileService.truthy filepath)]; split; reflexivity.
Qed.

Lemma download_requires_path_and_id_witness :
  FileService.getFile unit (fun _ => true) (fun _ _ => tt) (Some "i"%string)
    (Some ""%string) [] =
    (inl (FileService.DownloadFileInvalidParameterError (Some ""%string) (Some "i"%string)), [])
  /\
  FileService.getUrl (fun _ => true) (fun _ _ _ => "u"%string) None (Some "i"%string)
    (Some ""%string) [] =
    (inl (FileService.DownloadFileInvalidParameterError (Some ""%string) (Some "i"%string)), []).
Proof.
  apply (download_requires_path_and_id unit (fun _ => true) (fun _ _ => tt)
           (fun _ _ _ => "u"%string) None (Some "i"%string) (Some ""%string) []).
  right. left. reflexivity.
Defined.

(** X4. No FileService operation passes an empty file or folder path to the
    repository, nor an empty item id to [getFile] or [getUrl]: every call it
    makes carries non-empty ones. The [newId] of [copy] is not checked: once
    both paths are non-empty, [copy] hands any [newId], the empty one
    included, to the repository. *)
Theorem file_service_never_passes_empty_path :
  forall (Readable : Type) repoOk repoGetFile repoGetUrl
         (CopyFileResult CopyFolderResult : Type) repoCopyFile repoCopyFolder
         memberId (data : FileService.UploadData Readable) expiration id filepath
         p newId newFilePath originalPath mimetype newFolderPath originalFolderPath,
    FileService.callsNonEmptyPaths (FileService.upload Readable repoOk memberId data) /\
    FileService.callsNonEmptyPaths
      (FileService.getFile Readable repoOk repoGetFile id filepath) /\
    FileService.callsNonEmptyPaths
      (FileService.getUrl repoOk repoGetUrl expiration id filepath) /\
    FileService.callsNonEmptyPaths (FileService.delete repoOk memberId p) /\
    FileService.callsNonEmptyPaths (FileService.deleteFolder repoOk memberId p) /\
    FileService.callsNonEmptyPaths
      (FileService.copy repoOk CopyFileResult repoCopyFile memberId newId newFilePath
                        originalPath mimetype) /\
    FileService.callsNonEmptyPaths
      (FileService.copyFolder repoOk CopyFolderResult repoCopyFolder memberId
                              originalFolderPath newFolderPath) /\
    (originalPath <> ""%string -> newFilePath <> ""%string -> forall tr,
     snd (FileService.copy repoOk CopyFileResult repoCopyFile memberId newId newFilePath
                           originalPath mimetype tr)
       = tr ++ [FileService.CallCopyFile newId memberId originalPath newFilePath mimetype]).
Proof.
  intros Readable repoOk repoGetFile repoGetUrl CopyFileResult CopyFolderResult
    repoCopyFile repoCopyFolder mid data expiration i0 filepath p newId newFilePath
    originalPath mimetype newFolderPath originalFolderPath.
  assert (Hdel : forall q, FileService.callsNonEmptyPaths (FileService.delete repoOk mid q)).
  { intro q. unfold FileService.delete.
    destruct (String.length q =? 0) eqn:E; [apply cnp_fthrow|].
    apply cnp_callRepo. simpl. constructor; auto using length_zero_false. }
  assert (Hget : forall A (f : string -> string -> FileService.RepoCall)
                 (v : string -> string -> A),
            (forall fp i, FileService.checkedArgs (f fp i) = [fp; i]) ->
            FileService.callsNonEmptyPaths
              (match FileService.truthy filepath, FileService.truthy i0 with
               | Some fp, Some i => FileService.callRepo repoOk (f fp i) (v fp i)
               | _, _ => FileService.fthrow (FileService.DownloadFileInvalidParameterError
                                              filepath i0)
               end)).
  { intros A f v Hf.
    destruct (FileService.truthy filepath) as [fp|] eqn:E1; [|apply cnp_fthrow].
    destruct (FileService.truthy i0) as [i|] eqn:E2; [|apply cnp_fthrow].
    apply truthy_some in E1 as [_ E1]. apply truthy_some in E2 as [_ E2].
    apply cnp_callRepo. rewrite Hf. auto. }
  repeat split.
  - unfold FileService.upload.
    destruct (_ || _) eqn:E; [apply cnp_fthrow|].
    apply orb_false_iff in E as [_ E]. apply String.eqb_neq in E.
    apply cnp_fbind; [|intro; apply cnp_fret].
    apply cnp_fcatch.
    + apply cnp_callRepo. simpl. constructor; [exact E | constructor].
    + intro e. apply cnp_fbind; [apply cnp_detach, Hdel | intro; apply cnp_fthrow].
  - apply (Hget Readable (fun fp i => FileService.CallGetFile fp i)); reflexivity.
  - apply (Hget string (fun fp i => FileService.CallGetUrl expiration fp i)); reflexivity.
  - apply Hdel.
  - unfold FileService.deleteFolder.
    destruct (String.length p =? 0) eqn:E; [apply cnp_fthrow|].
    apply cnp_callRepo. simpl. constructor; auto using length_zero_false.
  - unfold FileService.copy.
    destruct (String.length originalPath =? 0) eqn:E1; [apply cnp_fthrow|].
    destruct (String.length newFilePath =? 0) eqn:E2; [apply cnp_fthrow|].
    apply cnp_callRepo. simpl. auto using length_zero_false.
  - unfold FileService.copyFolder.
    destruct (String.length originalFolderPath =? 0) eqn:E1; [apply cnp_fthrow|].
    destruct (String.length newFolderPath =? 0) eqn:E2; [apply cnp_fthrow|].
    apply cnp_callRepo. simpl. auto using length_zero_false.
  - intros Ho Hn tr. unfold FileService.copy.
    assert (E1 : (String.length originalPath =? 0) = false).
    { destruct originalPath; [congruence | reflexivity]. }
    assert (E2 : (String.length newFilePath =? 0) = false).
    { destruct newFilePath; [congruence | reflexivity]. }
    rewrite E1, E2. reflexivity.
Qed.
Lemma file_service_never_passes_empty_path_witness :
  snd (FileService.copy (fun _ => true) unit (fun _ _ _ _ _ => tt) "m"%string
         (Some ""%string) "b"%string "a"%string None [])
    = [FileService.CallCopyFile (Some ""%string) "m"%string "a"%string "b"%string None].
Proof.
  destruct (file_service_never_passes_empty_path unit (fun _ => true) (fun _ _ => tt)
              (fun _ _ _ => ""%string) unit unit (fun _ _ _ _ _ => tt) (fun _ _ => tt)
              "m"%string (FileService.mkUploadData None ""%string None) None None None
              ""%string (Some ""%string) "b"%string "a"%string None ""%string ""%string)
    as [_ [_ [_ [_ [_ [_ [_ H]]]]]]].
  apply (H ltac:(discriminate) ltac:(discriminate) []).
Defined.

(** X5. The path guards of [delete], [deleteFolder], [copy] and [copyFolder]
    throw their error, carrying the empty path, without calling the
    repository; [copy] and [copyFolder] do so when either path is empty. *)
Theorem empty_path_guards :
  forall repoOk (CopyFileResult CopyFolderResult : Type) repoCopyFile repoCopyFolder
         memberId newId newFilePath originalPath mimetype tr,
    FileService.delete repoOk memberId "" tr =
      (inl (FileService.DeleteFileInvalidPathError ""), tr) /\
    FileService.deleteFolder repoOk memberId "" tr =
      (inl (FileService.DeleteFolderInvalidPathError ""), tr) /\
    (originalPath = ""%string \/ newFilePath = ""%string ->
     FileService.copy repoOk CopyFileResult repoCopyFile memberId newId newFilePath
                      originalPath mimetype tr =
       (inl (FileService.CopyFileInvalidPathError ""), tr) /\
     FileService.copyFolder repoOk CopyFolderResult repoCopyFolder memberId
                            originalPath newFilePath tr =
       (inl (FileService.CopyFolderInvalidPathError ""), tr)).
Proof.
  intros. split; [reflexivity|]. split; [reflexivity|].
  intros [->| ->]; unfold FileService.copy, FileService.copyFolder;
    [split; reflexivity|].
  destruct (String.length originalPath =? 0) eqn:E.
  - apply length_zero_true in E. subst originalPath. split; reflexivity.
  - split; reflexivity.
Qed.

Lemma empty_path_guards_witness :
  FileService.copy (fun _ => true) unit (fun _ _ _ _ _ => tt) "m"%string None ""%string
    "a"%string None [] = (inl (FileService.CopyFileInvalidPathError ""), []) /\
  FileService.copyFolder (fun _ => true) unit (fun _ _ => tt) "m"%string "a"%string
    ""%string [] = (inl (FileService.CopyFolderInvalidPathError ""), []).
Proof.
  destruct (empty_path_guards (fun _ => true) unit unit (fun _ _ _ _ _ => tt)
              (fun _ _ => tt) "m"%string None ""%string "a"%string None []) as [_ [_ H]].
  apply H. right. reflexivity.
Defined.

(** ** Password routes *)

(** X6. [POST /password/reset] first sets the status 204 and sends the reply,
    and the reply is the same whatever the email and whatever becomes of the
    reset request, even when its creation fails: no later event touches the
    reply. *)
Theorem reset_request_reply_independent_of_email :
  forall (Store Member Err : Type) (member_lang : Member -> string)
         createResetPasswordRequest postManyAction email st ev,
  exists r st' rest,
    postResetPassword Store Member Err member_lang createResetPasswordRequest
      postManyAction email (st, ev) =
      (r, (st', ev ++ [EvStatus NO_CONTENT; EvSend] ++ rest)) /\
    forallb (fun e => negb (isReplyEvent e)) rest = true.
Proof.
  intros. unfold postResetPassword, logAction, hbind, hemit, hlift, hdetach, hret; simpl.
  destruct (createResetPasswordRequest st email) as [[e|[[token m]|]] st1]; simpl.
  - exists (inl e), st1, []. rewrite <- !app_assoc. auto.
  - destruct (postManyAction m AskResetPassword st1) as [r2 st2].
    exists (inr tt), st2, [EvMail email token (member_lang m); EvAction AskResetPassword m].
    rewrite <- !app_assoc. auto.
  - exists (inr tt), st1, []. rewrite <- !app_assoc. auto.
Qed.

(** X7. [POST /password/reset] sends a mail exactly when a reset request is
    created: one mail, to the requesting email, with the request's token, in
    the member's language, followed by an [AskResetPassword] action for that
    member; nothing else happens after the reply. *)
Theorem reset_request_mail_iff_request_created :
  forall (Store Member Err : Type) (member_lang : Member -> string)
         createResetPasswordRequest postManyAction email st ev,
    skipn (length ev + 2)
      (snd (snd (postResetPassword Store Member Err member_lang createResetPasswordRequest
                   postManyAction email (st, ev)))) =
    match fst (createResetPasswordRequest st email) with
    | inr (Some (token, member)) =>
        [EvMail email token (member_lang member); EvAction AskResetPassword member]
    | _ => []
    end.
Proof.
  intros. unfold postResetPassword, logAction, hbind, hemit, hlift, hdetach, hret; simpl.
  assert (Hs : forall a b (l : list (ResetEvent Member)),
             skipn (length ev + 2) (ev ++ a :: b :: l) = l).
  { intros a b l. rewrite skipn_app, skipn_all2 by lia.
    replace (length ev + 2 - length ev) with 2 by lia. reflexivity. }
  destruct (createResetPasswordRequest st email) as [[e|[[token m]|]] st1]; simpl;
    [| destruct (postManyAction m AskResetPassword st1) as [r2 st2]; simpl |];
    rewrite <- !app_assoc; simpl; apply Hs.
Qed.

(** X8. [PATCH /password/reset] runs outside a transaction: when the reset is
    applied and the lookup of the member then fails, the request fails with
    that error, no status is set, and the new password stays in the store. *)
Theorem reset_password_not_atomic :
  forall (Store Member Err : Type) applyReset getMemberByPasswordResetUuid postManyAction
         password uuid st ev st1 e st2,
    applyReset password uuid st = (inr tt, st1) ->
    getMemberByPasswordResetUuid uuid st1 = (inl e, st2) ->
    patchResetPassword Store Member Err applyReset getMemberByPasswordResetUuid
      postManyAction password uuid (st, ev) = (inl e, (st2, ev)).
Proof.
  intros Store Member Err ap gm pm password uuid st ev st1 e st2 Ha Hg.
  unfold patchResetPassword, hbind, hlift; simpl. rewrite Ha. simpl. rewrite Hg. reflexivity.
Qed.

Lemma reset_password_not_atomic_witness :
  patchResetPassword nat unit unit (fun _ _ st => (inr tt, S st))
    (fun _ st => (inl tt, st)) (fun _ _ st => (inr tt, st))
    "pw"%string "k"%string (0, []) = (inl tt, (1, [])).
Proof.
  apply (reset_password_not_atomic nat unit unit (fun _ _ st => (inr tt, S st))
           (fun _ st => (inl tt, st)) (fun _ _ st => (inr tt, st))
           "pw"%string "k"%string 0 [] 1 tt 1); reflexivity.
Defined.

(** X9. [POST /password] and [PATCH /password] set the status 204 exactly
    when the password service succeeds; when it fails, the store is rolled
    back and the reply is left as it was. *)
Theorem password_set_and_update_transactional :
  forall (Store Member Err : Type) postPassword patchPassword (member : Member)
         currentPassword password st rep,
    passwordPost Store Member Err postPassword member password (st, rep) =
      match postPassword member password st with
      | (inl e, _) => (inl e, (st, rep))
      | (inr _, st') => (inr tt, (st', setStatus NO_CONTENT rep))
      end /\
    passwordPatch Store Member Err patchPassword member currentPassword password (st, rep) =
      match patchPassword member password currentPassword st with
      | (inl e, _) => (inl e, (st, rep))
      | (inr _, st') => (inr tt, (st', setStatus NO_CONTENT rep))
      end.
Proof.
  intros. unfold passwordPost, passwordPatch, transaction, rbind, rlift, status; simpl.
  split; [destruct (postPassword member password st) as [[e|[]] st']
         | destruct (patchPassword member password currentPassword st) as [[e|[]] st']];
    reflexivity.
Qed.

(** X10. In [POST /password/nouser], when the member exists and the
    validation or the password creation fails, the request fails with that
    error, the store is rolled back (the validation included) and the reply is
    left as it was. *)
Theorem password_nouser_failure_rolls_back :
  forall (Store Member Err : Type) (member_id : Member -> ident)
         (getByEmail : Store -> string -> option Member)
         (validate : ident -> Store -> (Err + unit) * Store)
         (postPassword : Member -> string -> Store -> (Err + unit) * Store)
         email password st rep m e st1 st2,
    getByEmail st email = Some m ->
    validate (member_id m) st = (inl e, st1) \/
    (validate (member_id m) st = (inr tt, st1) /\ postPassword m password st1 = (inl e, st2)) ->
    passwordNoUser Store Member Err member_id getByEmail validate postPassword
      email password (st, rep) = (inl e, (st, rep)).
Proof.
  intros Store Member Err member_id getByEmail validate postPassword email password st rep
    m e st1 st2 Hm Hf.
  unfold passwordNoUser, transaction, rbind, rquery, rlift, status; simpl. rewrite Hm. simpl.
  destruct Hf as [Hv | [Hv Hp]]; rewrite Hv; simpl; [reflexivity|]. rewrite Hp. reflexivity.
Qed.

Lemma password_nouser_failure_rolls_back_witness :
  passwordNoUser nat unit bool (fun _ => "m"%string) (fun _ _ => Some tt)
    (fun _ st => (inr tt, S st)) (fun _ _ st => (inl true, S st))
    "e"%string "pw"%string (0, mkReply 200) = (inl true, (0, mkReply 200)).
Proof.
  apply (password_nouser_failure_rolls_back nat unit bool (fun _ => "m"%string)
           (fun _ _ => Some tt) (fun _ st => (inr tt, S st)) (fun _ _ st => (inl true, S st))
           "e"%string "pw"%string 0 (mkReply 200) tt true 1 2); [reflexivity|].
  right. split; reflexivity.
Defined.

(** ** Transactional item routes *)

(** X11. [POST /:itemId/like] and [DELETE /:itemId/like] either fail with the
    store rolled back (the like or unlike included), or succeed after logging
    exactly one action, of type [ItemLike] or [ItemUnlike], for the item read
    after the change, with [extra.itemId] its id; they answer with what the
    like service returned. *)
Theorem item_like_routes_log_one_action :
  forall (Store Err ItemLikeT : Type) itemLikeService_post itemLikeService_removeOne
         itemService_getFor actionService_postMany member itemId st rep,
  match postItemLike Store Err ItemLikeT itemLikeService_post itemService_getFor
          actionService_postMany member itemId (st, rep) with
  | (inl _, s') => s' = (st, rep)
  | (inr like, (st', rep')) =>
      rep' = rep /\
      exists st1 item st2,
        itemLikeService_post member itemId st = (inr like, st1) /\
        itemService_getFor member itemId st1 = (inr item, st2) /\
        actionService_postMany member [mkAction item ItemLike (id item)] st2 = (inr tt, st')
  end /\
  match deleteItemLike Store Err ItemLikeT itemLikeService_removeOne itemService_getFor
          actionService_postMany member itemId (st, rep) with
  | (inl _, s') => s' = (st, rep)
  | (inr like, (st', rep')) =>
      rep' = rep /\
      exists st1 item st2,
        itemLikeService_removeOne member itemId st = (inr like, st1) /\
        itemService_getFor member itemId st1 = (inr item, st2) /\
        actionService_postMany member [mkAction item ItemUnlike (id item)] st2 = (inr tt, st')
  end.
Proof.
  intros. unfold postItemLike, deleteItemLike, transaction, rbind, rlift, rret; simpl.
  split.
  - destruct (itemLikeService_post member itemId st) as [[e|like] st1] eqn:E1;
      simpl; [reflexivity|].
    destruct (itemService_getFor member itemId st1) as [[e|item] st2] eqn:E2;
      simpl; [reflexivity|].
    destruct (actionService_postMany member [mkAction item ItemLike (id item)] st2)
      as [[e|[]] st3] eqn:E3; simpl; [reflexivity|].
    split; [reflexivity | eauto 7].
  - destruct (itemLikeService_removeOne member itemId st) as [[e|like] st1] eqn:E1;
      simpl; [reflexivity|].
    destruct (itemService_getFor member itemId st1) as [[e|item] st2] eqn:E2;
      simpl; [reflexivity|].
    destruct (actionService_postMany member [mkAction item ItemUnlike (id item)] st2)
      as [[e|[]] st3] eqn:E3; simpl; [reflexivity|].
    split; [reflexivity | eauto 7].
Qed.

(** X12. [POST /collections/:itemId/publish] either fails with the store
    rolled back, or publishes the item it read with the [Admin] permission
    required, with the publication state computed for that same item. *)
Theorem publish_route_admin_item :
  forall (Store Err PublicationStatus ItemPublished : Type) itemService_getWith
         computeStateForItem itemPublishedService_post member itemId st rep,
  match publishRoute Store Err PublicationStatus ItemPublished itemService_getWith
          computeStateForItem itemPublishedService_post member itemId (st, rep) with
  | (inl _, s') => s' = (st, rep)
  | (inr published, (st', rep')) =>
      rep' = rep /\
      exists item st1 status st2,
        itemService_getWith member itemId Admin st = (inr item, st1) /\
        computeStateForItem member (id item) st1 = (inr status, st2) /\
        itemPublishedService_post member item status st2 = (inr published, st')
  end.
Proof.
  intros. unfold publishRoute, transaction, rbind, rlift; simpl.
  destruct (itemService_getWith member itemId Admin st) as [[e|item] st1] eqn:E1;
    simpl; [reflexivity|].
  destruct (computeStateForItem member (id item) st1) as [[e|status] st2] eqn:E2;
    simpl; [reflexivity|].
  destruct (itemPublishedService_post member item status st2) as [[e|p] st3] eqn:E3;
    simpl; [reflexivity|].
  split; [reflexivity | eauto 8].
Qed.

(** ** Item names and item schemas *)

(** From the in-word state, the pattern accepts the empty string, a name, or a
    space followed by a name. *)
Lemma namePatternFrom_true : forall s,
  namePatternFrom true s = true <->
  s = [] \/ namePatternFrom false s = true \/
  exists s', s = 32%N :: s' /\ namePatternFrom false s' = true.
Proof.
  intros [|c s']; simpl.
  - split; auto.
  - destruct (isWhitespace c) eqn:Ew; simpl.
    + split.
      * intros H. right. right. apply andb_true_iff in H as [H1 H2].
        apply N.eqb_eq in H1. subst c. eauto.
      * intros [H|[H|[s'' [H1 H2]]]]; [discriminate | discriminate |].
        injection H1 as -> ->. exact H2.
    + split; [auto|]. intros [H|[H|[s'' [H1 H2]]]]; [discriminate | exact H |].
      injection H1 as -> ->. discriminate.
Qed.

Lemma joinSpace_cons_char : forall c w ws,
  joinSpace ((c :: w) :: ws) = c :: joinSpace (w :: ws).
Proof. intros c w [|w' ws]; reflexivity. Qed.

Lemma namePattern_words_sound : forall n s, length s <= n ->
  namePatternFrom false s = true ->
  exists ws, ws <> [] /\ Forall nameWord ws /\ s = joinSpace ws.
Proof.
  induction n as [|n IH]; intros s Hl H.
  - destruct s; [discriminate | simpl in Hl; lia].
  - destruct s as [|c s']; [discriminate|]. simpl in H, Hl.
    destruct (isWhitespace c) eqn:Ew; [discriminate|].
    apply namePatternFrom_true in H as [->|[H|[s'' [-> H]]]].
    + exists [[c]]. refine (conj _ (conj _ eq_refl)); [discriminate|].
      constructor; [|constructor]. split; [discriminate | simpl; rewrite Ew; reflexivity].
    + destruct (IH s' ltac:(lia) H) as [[|w ws] [Hne [Hf ->]]]; [congruence|].
      exists ((c :: w) :: ws).
      refine (conj _ (conj _ (eq_sym (joinSpace_cons_char c w ws)))); [discriminate|].
      inversion Hf as [|? ? [_ Hw] Hf']; subst.
      constructor; [|exact Hf']. split; [discriminate | simpl; rewrite Ew, Hw; reflexivity].
    + simpl in Hl. destruct (IH s'' ltac:(lia) H) as [ws [Hne [Hf ->]]].
      exists ([c] :: ws). refine (conj _ (conj _ _)); [discriminate | |].
      * constructor; [|exact Hf]. split; [discriminate | simpl; rewrite Ew; reflexivity].
      * destruct ws; [congruence | reflexivity].
Qed.

Lemma namePattern_noWhitespace_app : forall w t,
  noWhitespace w = true -> namePatternFrom true t = true ->
  namePatternFrom true (w ++ t) = true.
Proof.
  induction w as [|c w IH]; intros t Hw Ht; [exact Ht|].
  simpl in *. apply andb_true_iff in Hw as [Hc Hw]. apply negb_true_iff in Hc.
  rewrite Hc. apply IH; assumption.
Qed.

Lemma namePattern_words_complete : forall ws, ws <> [] -> Forall nameWord ws ->
  namePatternFrom false (joinSpace ws) = true.
Proof.
  induction ws as [|w ws IH]; intros Hne Hf; [congruence|].
  inversion Hf as [|? ? [Hw0 Hw] Hf']; subst.
  destruct w as [|c w]; [congruence|]. simpl in Hw.
  apply andb_true_iff in Hw as [Hc Hw]. apply negb_true_iff in Hc.
  rewrite joinSpace_cons_char. simpl. rewrite Hc.
  destruct ws as [|w' ws].
  - simpl. rewrite <- (app_nil_r w).
    apply namePattern_noWhitespace_app; [exact Hw | reflexivity].
  - change (joinSpace (w :: w' :: ws)) with (w ++ 32%N :: joinSpace (w' :: ws)).
    apply namePattern_noWhitespace_app; [exact Hw|].
    simpl. apply IH; [discriminate | exact Hf'].
Qed.

(** X13. The automaton for ['^\\S+( \\S+)*$'] accepts exactly the strings made
    of one or more non-empty words without whitespace, joined by single
    spaces. *)
Theorem name_pattern_words :
  forall s, namePattern s = true <->
    exists ws, ws <> [] /\ Forall nameWord ws /\ s = joinSpace ws.
Proof.
  intros s. split.
  - apply (namePattern_words_sound (length s)). lia.
  - intros [ws [Hne [Hf ->]]]. apply namePattern_words_complete; assumption.
Qed.

Lemma itemName_valid_namePattern : forall s, itemName_valid s = namePattern s.
Proof. intros [|c s]; reflexivity. Qed.

(** X14. The [minLength(1)] on an item name adds nothing to its pattern: a
    string of length 0 never matches it. *)
Theorem name_min_length_redundant :
  forall s, itemName_valid s = namePattern s.
Proof.
  exact itemName_valid_namePattern.
Qed.

Lemma namePattern_last : forall s c b,
  namePatternFrom b (s ++ [c]) = true -> isWhitespace c = false.
Proof.
  induction s as [|c0 s IH]; intros c b H; simpl in H.
  - destruct (isWhitespace c); [|reflexivity].
    rewrite !andb_false_r in H. discriminate.
  - destruct (isWhitespace c0); [apply andb_true_iff in H as [_ H]|]; eapply IH; exact H.
Qed.

Lemma namePattern_pair : forall s1 c1 c2 s2 b,
  namePatternFrom b (s1 ++ c1 :: c2 :: s2) = true ->
  isWhitespace c1 = true -> isWhitespace c2 = false /\ c1 = 32%N.
Proof.
  induction s1 as [|c0 s1 IH]; intros c1 c2 s2 b H Hc1; simpl in H.
  - rewrite Hc1 in H. apply andb_true_iff in H as [H H2].
    apply andb_true_iff in H as [_ H]. apply N.eqb_eq in H. split; [|exact H].
    simpl in H2. destruct (isWhitespace c2); [discriminate | reflexivity].
  - destruct (isWhitespace c0); [apply andb_true_iff in H as [_ H]|]; eapply IH; eassumption.
Qed.

(** X15. A name that matches the pattern does not start or end with
    whitespace, and each whitespace character in it is a plain space (U+0020)
    followed by a non-whitespace character. *)
Theorem valid_name_trimmed :
  forall s, itemName_valid s = true ->
    (forall c s', s = c :: s' -> isWhitespace c = false) /\
    (forall s' c, s = s' ++ [c] -> isWhitespace c = false) /\
    (forall s1 c1 s2, s = s1 ++ c1 :: s2 -> isWhitespace c1 = true ->
       c1 = 32%N /\ exists c2 s3, s2 = c2 :: s3 /\ isWhitespace c2 = false).
Proof.
  intros s H. rewrite itemName_valid_namePattern in H. unfold namePattern in H.
  split; [|split].
  - intros c s' ->. simpl in H. destruct (isWhitespace c); [discriminate | reflexivity].
  - intros s' c ->. eapply namePattern_last. exact H.
  - intros s1 c1 s2 -> Hc1. destruct s2 as [|c2 s3].
    + apply namePattern_last in H. congruence.
    + apply namePattern_pair in H as [H1 H2]; [|exact Hc1].
      split; [exact H2|]. eauto.
Qed.

(** "a" U+3000 "b" is rejected: the ideographic space is whitespace but not a
    plain space; "a b" is accepted. *)
Lemma valid_name_trimmed_witness :
  itemName_valid [97; 12288; 98]%N = false /\
  (32 = 32 /\ exists c2 s3, [98%N] = c2 :: s3 /\ isWhitespace c2 = false)%N.
Proof.
  split; [reflexivity|].
  destruct (valid_name_trimmed [97; 32; 98]%N ltac:(reflexivity)) as [_ [_ H]].
  apply (H [97%N] 32%N [98%N]); reflexivity.
Defined.


(** X17. [getMany] runs its handler only on at most
    [MAX_TARGETS_FOR_READ_REQUEST] ids, all of [uuid] format; a larger request
    is rejected with the state unchanged. *)
Theorem get_many_read_limit :
  forall MAX_TARGETS_FOR_READ_REQUEST isUuid (St R : Type)
         (handler : list string -> St -> R * St) ids st,
  match getManyRoute MAX_TARGETS_FOR_READ_REQUEST isUuid handler ids st with
  | (Handled r, st') => length ids <= MAX_TARGETS_FOR_READ_REQUEST /\
                        forallb isUuid ids = true /\ (r, st') = handler ids st
  | (BadRequest, st') => st' = st
  end.
Proof.
  intros. unfold getManyRoute, validated.
  destruct ((length ids <=? MAX_TARGETS_FOR_READ_REQUEST) && idsQuery_valid isUuid ids) eqn:E;
    [|reflexivity].
  apply andb_true_iff in E as [E1 E2]. apply Nat.leb_le in E1.
  destruct (handler ids st) as [r st'] eqn:Eh. auto.
Qed.

(** ** The move task *)

Lemma encodePath_nonempty : forall x l,
  x <> ""%string -> encodePath (x :: l) <> ""%string.
Proof.
  intros x l Hx. unfold encodePath. destruct l as [|y l]; [exact Hx|].
  rewrite concat_cons2. destruct x; [congruence | discriminate].
Qed.

(** X18. Moving a non-root item to the root succeeds for an admin of the item
    within the descendant limit, whatever the depth limit: the root branch of
    [run] checks neither a write permission nor the depth. *)
Theorem move_to_root_succeeds :
  forall maxD maxL actor tid pid db item,
    itemService_get tid db = Some item ->
    canAdmin actor item db = true ->
    getNumberOfDescendants item db <= maxD ->
    2 <= length (path item) ->
    Forall (fun i => i <> ""%string) (path item) ->
    pid = None \/ pid = Some ""%string ->
    fst (run maxD maxL actor tid pid db) = inr tt.
Proof.
  intros maxD maxL actor tid pid db item Hg Ha Hd Hl Hne Hp.
  assert (Hpp : falsy (parentPath item) = false).
  { rewrite parentPath_removelast by exact Hl. simpl.
    destruct (path item) as [|x p] eqn:Ep; [simpl in Hl; lia|].
    destruct p as [|y p]; [simpl in Hl; lia|].
    inversion Hne as [|? ? Hx _]; subst.
    apply String.eqb_neq. simpl removelast.
    destruct p; apply encodePath_nonempty; exact Hx. }
  assert (Hn : noParentCheck item db = (inr None, db)).
  { unfold noParentCheck. rewrite Hpp. reflexivity. }
  rewrite run_unfold, Hg, Ha. simpl.
  replace (maxD <? getNumberOfDescendants item db) with false
    by (symmetry; apply Nat.ltb_ge; exact Hd).
  destruct Hp as [-> | ->]; simpl; rewrite Hn; rewrite moveItem_effect; reflexivity.
Qed.

Lemma move_to_root_succeeds_witness :
  fst (run 10 0 "a"%string "x"%string None Samples.db0) = inr tt.
Proof.
  apply (move_to_root_succeeds 10 0 "a"%string "x"%string None Samples.db0 Samples.itemX);
    [vm_compute; reflexivity | vm_compute; reflexivity | vm_compute; lia | simpl; lia
    | repeat constructor; discriminate | left; reflexivity].
Defined.

Lemma prefix_app_same_length : forall s s' t t' : string,
  String.length s = String.length s' ->
  String.prefix (s ++ t) (s' ++ t') = String.eqb s s' && String.prefix t t'.
Proof.
  induction s as [|c s IH]; intros [|c' s'] t t' Hl; simpl in Hl; try discriminate.
  - reflexivity.
  - simpl. destruct (Ascii.ascii_dec c c') as [<-|Hne].
    + rewrite Ascii.eqb_refl. simpl. apply IH. lia.
    + destruct (Ascii.eqb_spec c c'); [congruence | reflexivity].
Qed.

Lemma prefix_empty : forall t : string, String.prefix "" t = true.
Proof. intros []; reflexivity. Qed.

Lemma encodePath_cons : forall x l,
  encodePath (x :: l) =
  (x ++ match l with [] => "" | _ => "." ++ encodePath l end)%string.
Proof.
  intros x [|y l]; [symmetry; apply string_append_empty | reflexivity].
Qed.

(** X19. When all ids have the same non-zero length, as uuids do, the
    [startsWith] test of [MoveItemTask.run] on encoded paths is exactly the
    ltree descendant-or-self test: it never mistakes an item whose id merely
    begins with another id for a descendant. *)
Theorem startsWith_exact_for_fixed_length_ids :
  forall n a b, 1 <= n ->
    Forall (fun i => String.length i = n) a -> Forall (fun i => String.length i = n) b ->
    String.prefix (encodePath a) (encodePath b) = is_prefix a b.
Proof.
  intros n a. induction a as [|x a IH]; intros b Hn Ha Hb.
  - simpl. destruct (encodePath b); reflexivity.
  - inversion Ha as [|? ? Hx Ha']; subst.
    destruct b as [|y b].
    + destruct x as [|c x]; [simpl in Hn; lia|].
      rewrite encodePath_cons. reflexivity.
    + inversion Hb as [|? ? Hy Hb']; subst.
      rewrite !encodePath_cons, prefix_app_same_length by congruence. simpl is_prefix.
      f_equal.
      destruct a as [|x' a]; [apply prefix_empty|].
      destruct b as [|y' b]; [reflexivity|].
      exact (IH (y' :: b) Hn Ha' Hb').
Qed.

Lemma startsWith_exact_for_fixed_length_ids_witness :
  String.prefix (encodePath ["ab"; "cd"]%string) (encodePath ["ab"; "ce"; "ef"]%string)
  = is_prefix ["ab"; "cd"]%string ["ab"; "ce"; "ef"]%string.
Proof.
  apply (startsWith_exact_for_fixed_length_ids 2); [lia | repeat constructor | repeat constructor].
Defined.

